(** * xeus-r request bridge: a shallow embedding of [src/xinterpreter.cpp]

    The file embeds the console redirector ([WriteConsoleEx],
    [capture_WriteConsoleEx]), the interactive input bridge ([ReadConsole])
    and the request handlers of [xeus_r::interpreter] as functions over an
    explicit session state, and states the properties of the specification
    over them.

    Conventions.
    - [std::string] is [string]; a byte is an [ascii], NUL included.
    - a C [int] is a [Z]; [std::size_t] is a [Z] reduced modulo [2^64].
    - the embedded runtime's values ([SEXP]) are an inductive type; the
      protection stack ([R_PPStack]) is the list of protected values, most
      recent first.
    - a handler is a computation in the monad [M]: it threads the session
      and either returns or leaves by a raised error. *)

From Stdlib Require Import ZArith String Ascii List Lia.
From stdpp Require Import base option list strings gmap.

Local Open Scope string_scope.
#[local] Set Warnings "-register-all".


(** ** Strings and C strings *)

(** [std::string(const char* s)]: the bytes before the first NUL. This is
    what [code.c_str()] handed to [Rf_mkString] and what
    [std::string(CHAR(x))] keep of a byte sequence. *)
Fixpoint c_str (s : string) : string :=
  match s with
  | EmptyString => EmptyString
  | String c r => if Ascii.eqb c zero then EmptyString else String c (c_str r)
  end.

(** No NUL byte: the invariant of the runtime's CHARSXP contents. *)
Fixpoint nul_free (s : string) : bool :=
  match s with
  | EmptyString => true
  | String c r => negb (Ascii.eqb c zero) && nul_free r
  end.

(** The first [n] bytes of [s]. *)
Fixpoint string_take (n : nat) (s : string) : string :=
  match n, s with
  | S k, String c r => String c (string_take k r)
  | _, _ => EmptyString
  end.

(** [std::string output(buf, buflen)]: exactly [buflen] bytes starting at
    [buf], no scan for a terminator. [buf] stands for the bytes readable at
    the pointer; a negative [buflen] (converted to a huge [size_t]) or one
    beyond the readable bytes has no defined result. *)
Definition std_string_n (buf : string) (buflen : Z) : option string :=
  if decide (0 ≤ buflen ≤ Z.of_nat (String.length buf))%Z
  then Some (string_take (Z.to_nat buflen) buf)
  else None.

(** ** Runtime values *)

(** The shapes of SEXP the bridge builds or inspects. [VECSXP] carries its
    class attribute, which [Rf_inherits] reads; [LANGSXP] is a call with
    optionally tagged arguments. Logical values are C ints (FALSE = 0,
    TRUE = 1). *)
Inductive SEXP : Type :=
| R_NilValue
| LGLSXP (v : list Z)
| INTSXP (v : list Z)
| STRSXP (v : list string)
| VECSXP (klass : list string) (v : list SEXP)
| LANGSXP (fn : string) (args : list (option string * SEXP)).

Definition Rf_mkString (s : string) : SEXP := STRSXP [s].
Definition Rf_ScalarInteger (n : Z) : SEXP := INTSXP [n].
Definition Rf_ScalarLogical (b : bool) : SEXP := LGLSXP [if b then 1%Z else 0%Z].

Definition XLENGTH (x : SEXP) : nat :=
  match x with
  | R_NilValue => 0
  | LGLSXP v | INTSXP v => length v
  | STRSXP v => length v
  | VECSXP _ v => length v
  | LANGSXP _ args => S (length args)
  end.

(** Element accessors; [None] stands for the runtime error raised on a
    value of the wrong type or an index out of range. *)
Definition VECTOR_ELT (x : SEXP) (i : nat) : option SEXP :=
  match x with VECSXP _ v => v !! i | _ => None end.

Definition STRING_ELT (x : SEXP) (i : nat) : option string :=
  match x with STRSXP v => v !! i | _ => None end.

Definition LOGICAL_ELT (x : SEXP) (i : nat) : option Z :=
  match x with LGLSXP v => v !! i | _ => None end.

Definition INTEGER_ELT (x : SEXP) (i : nat) : option Z :=
  match x with INTSXP v => v !! i | _ => None end.

(** [SET_STRING_ELT(x, i, Rf_mkChar(s))] on a character vector. *)
Definition SET_STRING_ELT (x : SEXP) (i : nat) (s : string) : SEXP :=
  match x with STRSXP v => STRSXP (<[i := s]> v) | _ => x end.

Definition Rf_inherits (x : SEXP) (name : string) : bool :=
  match x with
  | VECSXP klass _ => bool_decide (name ∈ klass)
  | _ => false
  end.

(** ** Structured data and replies *)

Inductive json : Type :=
| json_null
| json_bool (b : bool)
| json_number (n : Z)
| json_string (s : string)
| json_array (l : list json)
| json_object (l : list (string * json)).

(** [nl::json(vec)] for a [std::vector<std::string>]. *)
Definition json_of_strings (vec : list string) : json :=
  json_array (json_string <$> vec).

(** The replies the bridge builds with the protocol library's helpers; a
    constructor records the helper called and the arguments in the order
    the bridge passes them. *)
Inductive reply : Type :=
| create_error_reply (arg1 arg2 : string) (trace_back : list string)
| create_successful_reply
| create_is_complete_reply (status indent : string)
| create_complete_reply (matches : json) (cursor_start cursor_end : Z)
| create_inspect_reply (found : bool) (data : json).

(** What reaches the surrounding server, in emission order. [send_reply]
    is a call of the [send_reply_callback]. *)
Inductive event : Type :=
| stream_event (name text : string)
| execution_error_event (arg1 arg2 : string) (trace_back : list string)
| execution_result_event (execution_count : Z) (data metadata : json)
| store_inputs_event (revision execution_count : Z) (code : string)
| send_reply (r : reply).

(** ** Session state and the handler monad *)

(** Which function is installed in [ptr_R_WriteConsoleEx]. *)
Inductive console_sink : Type := publish_mode | capture_mode.

Record session : Type := mk_session {
  events : list event;
  capture_stream : string;
  R_PPStack : list SEXP;
  ptr_R_WriteConsoleEx : console_sink
}.

Definition emit (e : event) (st : session) : session :=
  mk_session (events st ++ [e]) (capture_stream st) (R_PPStack st)
             (ptr_R_WriteConsoleEx st).

Definition capture (s : string) (st : session) : session :=
  mk_session (events st) (capture_stream st +:+ s) (R_PPStack st)
             (ptr_R_WriteConsoleEx st).

Definition set_R_PPStack (stack : list SEXP) (st : session) : session :=
  mk_session (events st) (capture_stream st) stack (ptr_R_WriteConsoleEx st).

Inductive exn : Type :=
| R_error (msg : string)
| std_exception (what : string).

Inductive outcome (A : Type) : Type :=
| Returned (a : A) (st : session)
| Raised (e : exn) (st : session).
Arguments Returned {A} a st.
Arguments Raised {A} e st.

Definition M (A : Type) : Type := session → outcome A.

#[global] Instance M_ret : MRet M := λ A a st, Returned a st.
#[global] Instance M_bind : MBind M := λ A B f m st,
  match m st with
  | Returned a st' => f a st'
  | Raised e st' => Raised e st'
  end.

Definition raise {A} (e : exn) : M A := λ st, Raised e st.
Definition modify (f : session → session) : M unit := λ st, Returned () (f st).

(** Lift a runtime accessor: [None] raises a runtime error. *)
Definition R_try {A} (o : option A) : M A :=
  match o with
  | Some a => mret a
  | None => raise (R_error "invalid native value")
  end.

(** Lift a C++ library call: [None] throws. *)
Definition cpp_try {A} (what : string) (o : option A) : M A :=
  match o with
  | Some a => mret a
  | None => raise (std_exception what)
  end.

(** [PROTECT(x)] pushes [x]; [UNPROTECT(n)] pops [n] entries. With fewer
    than [n] entries on the stack the runtime signals its stack-imbalance
    error (builds that check) or is left with a corrupted stack index
    (builds that do not); the model takes the checked behaviour. The two
    agree whenever [n] entries are on the stack. *)
Definition PROTECT (x : SEXP) : M SEXP := λ st,
  Returned x (set_R_PPStack (x :: R_PPStack st) st).

Definition UNPROTECT (n : nat) : M unit := λ st,
  if (n <=? length (R_PPStack st))%nat
  then Returned () (set_R_PPStack (drop n (R_PPStack st)) st)
  else Raised (R_error "unprotect(): stack imbalance") st.

Definition publish_stream (name text : string) : M unit :=
  modify (emit (stream_event name text)).

(** ** Console Redirector *)

Definition WriteConsoleEx (buf : string) (buflen otype : Z) : M unit :=
  output ← cpp_try "basic_string" (std_string_n buf buflen);
  if decide (otype = 1%Z) then publish_stream "stderr" output
  else publish_stream "stdout" output.

Definition capture_WriteConsoleEx (buf : string) (buflen otype : Z) : M unit :=
  output ← cpp_try "basic_string" (std_string_n buf buflen);
  if decide (otype = 1%Z) then mret ()
  else modify (capture output).

(** The runtime writes through whichever sink is installed. *)
Definition R_WriteConsoleEx (buf : string) (buflen otype : Z) : M unit := λ st,
  match ptr_R_WriteConsoleEx st with
  | publish_mode => WriteConsoleEx buf buflen otype st
  | capture_mode => capture_WriteConsoleEx buf buflen otype st
  end.

(** ** Interactive Input Bridge *)

Definition size_t (z : Z) : Z := (z mod 2 ^ 64)%Z.

(** [std::copy(src, src + n, dst)]: byte [k] of [src] goes to offset
    [i + k]. Memory is indexed by offset from the [buffer] pointer. *)
Fixpoint std_copy (src : string) (n : nat) (i : Z) (mem : gmap Z ascii)
  {struct n} : gmap Z ascii :=
  match n, src with
  | S k, String c r => std_copy r k (i + 1)%Z (<[i := c]> mem)
  | _, _ => mem
  end.

Definition newline : ascii := "010"%char.

Section InputBridge.

(** [xeus::blocking_input_request(prompt, password)]: the blocking round
    trip to the client, which yields the client's answer. *)
Variable blocking_input_request : string → bool → string.

(** The result is the memory after the call and the returned int. *)
Definition ReadConsole (prompt : string) (buffer : gmap Z ascii) (length : Z)
    (addtohistory : Z) : gmap Z ascii * Z :=
  let res := blocking_input_request prompt false in
  let size := Z.min (Z.of_nat (String.length res)) (size_t length) in
  let buffer := std_copy res (Z.to_nat size) 0 buffer in
  let buffer := <[size := newline]> buffer in
  (* TODO: return 0 when xeus::blocking_input_request fails *)
  (buffer, 1%Z).

End InputBridge.

(** ** Calls into the embedded runtime *)

(** One write of the runtime to its console: [cw_buf] is the text written,
    which the runtime hands to the installed sink together with its length,
    and [cw_otype] the channel. *)
Record console_write : Type := mk_console_write {
  cw_buf : string;
  cw_otype : Z
}.

(** What a native evaluation does as seen from the bridge: console writes
    while it runs, then a value, or [None] when it leaves by a runtime
    error. *)
Record native_call (A : Type) : Type := mk_native_call {
  nc_console : list console_write;
  nc_result : option A
}.
Arguments mk_native_call {A} nc_console nc_result.
Arguments nc_console {A} n.
Arguments nc_result {A} n.

Fixpoint write_console (ws : list console_write) : M unit :=
  match ws with
  | [] => mret ()
  | w :: ws =>
      R_WriteConsoleEx (cw_buf w) (Z.of_nat (String.length (cw_buf w))) (cw_otype w);;
      write_console ws
  end.

Definition run_native {A} (c : native_call A) : M A :=
  write_console (nc_console c);;
  match nc_result c with
  | Some a => mret a
  | None => raise (R_error "error in native evaluation")
  end.

(** [R_tryCatchError(body, bdata, handler, hdata)]: a runtime error raised
    by [body] unwinds to the entry of the call, which restores the
    protection stack, and runs [handler]. The two lambdas of the source
    update the vector behind their [void*] argument in place; here they
    return the updated vector. *)
Definition R_tryCatchError {A} (body : A → M A) (bdata : A)
    (handler : A → M A) (hdata : A) : M A := λ st,
  match body bdata st with
  | Raised (R_error _) st' => handler hdata (set_R_PPStack (R_PPStack st) st')
  | o => o
  end.

Inductive ParseStatus : Type :=
| PARSE_NULL | PARSE_OK | PARSE_INCOMPLETE | PARSE_ERROR | PARSE_EOF.

(** [for (i = start; i < start + count; i++) acc = body(i, acc)], where the
    body may fail. *)
Fixpoint for_loop {A} (count i : nat) (body : nat → A → option A) (acc : A)
  : option A :=
  match count with
  | 0 => Some acc
  | S k => acc' ← body i acc; for_loop k (S i) body acc'
  end.

(** [CHAR(STRING_ELT(x, i))] read into a [std::string]. *)
Definition CHAR_STRING_ELT (x : SEXP) (i : nat) : option string :=
  c_str <$> STRING_ELT x i.

(** ** Result/Error Codec *)

Definition json_from_character_vector (x : SEXP) : option json :=
  let n := XLENGTH x in
  let vec := replicate n "" in
  vec ← for_loop n 0 (λ i (vec : list string),
                        s ← CHAR_STRING_ELT x i; Some (<[i := s]> vec)) vec;
  Some (json_of_strings vec).

(** The trace loop of [execute_request_impl]: [push_back] of each element. *)
Definition trace_back_of (trace_back_ : SEXP) : option (list string) :=
  let n := XLENGTH trace_back_ in
  for_loop n 0 (λ i (trace_back : list string),
                  s ← CHAR_STRING_ELT trace_back_ i; Some (trace_back ++ [s])%list) [].

(** ** Request Bridge *)

Record execute_request_config : Type := mk_execute_request_config {
  silent : bool;
  store_history : bool;
  allow_stdin : bool
}.

Definition publish_execution_error (arg1 arg2 : string) (tb : list string)
  : M unit := modify (emit (execution_error_event arg1 arg2 tb)).

Definition publish_execution_result (n : Z) (data metadata : json) : M unit :=
  modify (emit (execution_result_event n data metadata)).

Definition store_inputs (revision n : Z) (code : string) : M unit :=
  modify (emit (store_inputs_event revision n code)).

(** [cb(r)]: the reply callback delivers [r] to the client. *)
Definition cb (r : reply) : M unit := modify (emit (send_reply r)).

(** [SET_TAG(CDDR(call), tag)]: names the second argument of a call. *)
Definition SET_TAG_CDDR (call : SEXP) (tag : string) : SEXP :=
  match call with
  | LANGSXP fn args => LANGSXP fn (alter (λ a, (Some tag, a.2)) 1%nat args)
  | _ => call
  end.

Section Bridge.

(** The helpers of [rtools.hpp] and the libraries the handlers call.
    - [invoke_hera_fn f args]: the companion library's entry point [f]
      called on [args];
    - [r_call fn args]: the call object for [fn(args...)];
    - [Rf_eval call]: evaluation of a call in the global environment;
    - [R_ParseVector code]: the parser's status, [None] when it raises;
    - [json_parse s]: [nl::json::parse], [None] when it throws. *)
Variable invoke_hera_fn : string → list SEXP → native_call SEXP.
Variable r_call : string → list SEXP → SEXP.
Variable Rf_eval : SEXP → native_call SEXP.
Variable R_ParseVector : SEXP → option ParseStatus.
Variable json_parse : string → option json.

Definition execute_request_impl (execution_count : Z) (code : string)
    (config : execute_request_config) : M unit :=
  (if store_history config then store_inputs 0 execution_count code
   else mret ());;
  code_ ← PROTECT (Rf_mkString (c_str code));
  execution_counter_ ← PROTECT (Rf_ScalarInteger execution_count);
  silent_ ← PROTECT (Rf_ScalarLogical (silent config));
  result ← run_native
    (invoke_hera_fn "execute" [code_; execution_counter_; silent_]);
  (if Rf_inherits result "error_reply" then
     evalue ← R_try (v ← VECTOR_ELT result 0; CHAR_STRING_ELT v 0);
     ename ← R_try (v ← VECTOR_ELT result 1; CHAR_STRING_ELT v 0);
     trace_back ←
       (if (2 <? XLENGTH result)%nat then
          R_try (trace_back_ ← VECTOR_ELT result 2; trace_back_of trace_back_)
        else mret []);
     publish_execution_error evalue ename trace_back;;
     UNPROTECT 3;;
     cb (create_error_reply evalue ename trace_back)
   else mret ());;
  (if Rf_inherits result "execution_result" then
     data_ ← R_try (VECTOR_ELT result 0);
     metadata_ ← R_try (VECTOR_ELT result 1);
     s ← R_try (CHAR_STRING_ELT data_ 0);
     data ← cpp_try "parse_error" (json_parse s);
     s ← R_try (CHAR_STRING_ELT metadata_ 0);
     metadata ← cpp_try "parse_error" (json_parse s);
     publish_execution_result execution_count data metadata
   else mret ());;
  UNPROTECT 3;;
  cb create_successful_reply.

Definition configure_impl : M unit :=
  str_hera ← PROTECT (Rf_mkString "hera");
  call_library_hera ←
    PROTECT (r_call "require" [str_hera; Rf_ScalarLogical true]);
  let call_library_hera := SET_TAG_CDDR call_library_hera "quietly" in
  out ← run_native (Rf_eval call_library_hera);
  out ← PROTECT out;
  loaded ← R_try (LOGICAL_ELT out 0);
  (if decide (loaded = 0%Z) then
     mret () (* TODO: suicide the kernel because hera is not installed *)
   else mret ());;
  UNPROTECT 3.

Definition is_complete_body (code : SEXP) : M SEXP :=
  status ← R_try (R_ParseVector code);
  match status with
  | PARSE_INCOMPLETE => mret (SET_STRING_ELT code 0 "incomplete")
  | PARSE_ERROR => mret (SET_STRING_ELT code 0 "invalid")
  | _ => mret (SET_STRING_ELT code 0 "complete")
  end.

Definition is_complete_handler (code : SEXP) : M SEXP :=
  mret (SET_STRING_ELT code 0 "invalid").

Definition is_complete_request_impl (code_ : string) : M reply :=
  code ← PROTECT (Rf_mkString (c_str code_));
  code ← R_tryCatchError is_complete_body code is_complete_handler code;
  status ← R_try (CHAR_STRING_ELT code 0);
  let result := create_is_complete_reply status "" in
  UNPROTECT 1;;
  mret result.

Definition complete_request_impl (code : string) (cursor_pos : Z) : M reply :=
  code_ ← PROTECT (Rf_mkString (c_str code));
  cursor_pos_ ← PROTECT (Rf_ScalarInteger cursor_pos);
  result ← run_native (invoke_hera_fn "complete" [code_; cursor_pos_]);
  result ← PROTECT result;
  matches ← R_try (v ← VECTOR_ELT result 0; json_from_character_vector v);
  cursor_start ← R_try (v ← VECTOR_ELT result 1; INTEGER_ELT v 0);
  cursor_end ← R_try (v ← VECTOR_ELT result 1; INTEGER_ELT v 1);
  let reply := create_complete_reply matches cursor_start cursor_end in
  UNPROTECT 3;;
  mret reply.

Definition inspect_request_impl (code : string) (cursor_pos detail_level : Z)
  : M reply :=
  code_ ← PROTECT (Rf_mkString (c_str code));
  cursor_pos_ ← PROTECT (Rf_ScalarInteger cursor_pos);
  result ← run_native (invoke_hera_fn "inspect" [code_; cursor_pos_]);
  result ← PROTECT result;
  found ← R_try (v ← VECTOR_ELT result 0; LOGICAL_ELT v 0);
  let found := negb (found =? 0)%Z in
  if negb found then
    UNPROTECT 3;;
    mret (create_inspect_reply false (json_object []))
  else
    s ← R_try (v ← VECTOR_ELT result 1; CHAR_STRING_ELT v 0);
    data ← cpp_try "parse_error" (json_parse s);
    UNPROTECT 3;;
    mret (create_inspect_reply found data).

End Bridge.


(** ** Observations on sessions *)

(** The session an outcome leaves behind, however control left. *)
Definition final {A} (o : outcome A) : session :=
  match o with Returned _ st | Raised _ st => st end.

(** The effect of one console write through the installed sink, and of a
    sequence of them. *)
Definition console_effect (w : console_write) (st : session) : session :=
  match ptr_R_WriteConsoleEx st with
  | publish_mode =>
      emit (stream_event (if decide (cw_otype w = 1%Z) then "stderr" else "stdout")
                         (cw_buf w)) st
  | capture_mode =>
      if decide (cw_otype w = 1%Z) then st else capture (cw_buf w) st
  end.

Definition console_effects (ws : list console_write) (st : session) : session :=
  foldl (λ st w, console_effect w st) st ws.

(** The replies delivered through the callback, in order. *)
Definition replies (st : session) : list reply :=
  omap (λ e, match e with send_reply r => Some r | _ => None end) (events st).

Definition is_execution_result (e : event) : bool :=
  match e with execution_result_event _ _ _ => true | _ => false end.

(** The execution-result events published so far. *)
Definition results (st : session) : list event :=
  filter (λ e, is_execution_result e = true) (events st).

(** The history step that opens [execute_request_impl]. *)
Definition history_effect (n : Z) (code : string) (config : execute_request_config)
    (st : session) : session :=
  if store_history config then emit (store_inputs_event 0 n code) st else st.

(** The arguments [execute_request_impl] hands to the companion library's
    [execute]: the code, the execution counter and the silent flag. *)
Definition execute_args (n : Z) (code : string) (config : execute_request_config)
  : list SEXP :=
  [Rf_mkString (c_str code); Rf_ScalarInteger n; Rf_ScalarLogical (silent config)].

(** The arguments of [complete] and [inspect]: the code and the cursor. *)
Definition request_args (code : string) (cursor_pos : Z) : list SEXP :=
  [Rf_mkString (c_str code); Rf_ScalarInteger cursor_pos].

(** The call [configure_impl] evaluates: [require("hera", quietly = TRUE)]. *)
Definition require_hera_call (r_call : string → list SEXP → SEXP) : SEXP :=
  SET_TAG_CDDR (r_call "require" [Rf_mkString "hera"; Rf_ScalarLogical true])
               "quietly".

(** A relation between the session before and after that a handler
    maintains, however it ends. *)
Definition preserves {A} (R : relation session) (m : M A) : Prop :=
  ∀ st, R st (final (m st)).

Definition same_results : relation session := λ st st', results st' = results st.

Definition events_extend : relation session :=
  λ st st', events st `prefix_of` events st'.

(** ** Sample sessions and runtime behaviours *)

(** A fresh session in publish mode, and one entered while an enclosing
    native frame holds three protected values. *)
Definition session0 : session := mk_session [] "" [] publish_mode.

Definition session_in_frame : session :=
  mk_session [] ""
    [Rf_mkString "x"; Rf_ScalarInteger 1; Rf_ScalarLogical true] publish_mode.

Definition capture_session : session := mk_session [] "a" [] capture_mode.

(** A stand-in for [nl::json::parse] that accepts every text. *)
Definition parse_as_text (s : string) : option json := Some (json_string s).

Definition silent_config : execute_request_config :=
  mk_execute_request_config true false false.

Definition default_config : execute_request_config :=
  mk_execute_request_config false true true.

(** The companion library answering [stop('boom')]: an [error_reply] with
    message, kind and a two-line trace. *)
Definition hera_boom (f : string) (args : list SEXP) : native_call SEXP :=
  mk_native_call []
    (Some (VECSXP ["error_reply"]
             [STRSXP ["boom"]; STRSXP ["simpleError"];
              STRSXP ["f()"; "stop('boom')"]])).

(** A companion library that returns an [execution_result] for a visible
    value without looking at the silent flag, and one that returns nothing
    to publish. *)
Definition hera_visible (f : string) (args : list SEXP) : native_call SEXP :=
  mk_native_call []
    (Some (VECSXP ["execution_result"] [STRSXP ["{}"]; STRSXP ["{}"]])).

Definition hera_invisible (f : string) (args : list SEXP) : native_call SEXP :=
  mk_native_call [] (Some R_NilValue).

(** A companion library whose [execution_result] carries a truncated
    document, and the parser's refusal of it. *)
Definition hera_truncated (f : string) (args : list SEXP) : native_call SEXP :=
  mk_native_call []
    (Some (VECSXP ["execution_result"] [STRSXP ["{"]; STRSXP ["{}"]])).

Definition parse_refuses (s : string) : option json := None.

Definition hera_not_found (f : string) (args : list SEXP) : native_call SEXP :=
  mk_native_call [] (Some (VECSXP [] [LGLSXP [0%Z]])).

Definition hera_found (f : string) (args : list SEXP) : native_call SEXP :=
  mk_native_call [] (Some (VECSXP [] [LGLSXP [1%Z]; STRSXP ["{}"]])).

(** [r_call] as the plain call constructor. *)
Definition plain_r_call (fn : string) (args : list SEXP) : SEXP :=
  LANGSXP fn ((λ a, (None, a)) <$> args).

(** ** Further observations *)

Definition is_stream (e : event) : bool :=
  match e with stream_event _ _ => true | _ => false end.

(** The events other than console output published so far. *)
Definition non_stream (st : session) : list event :=
  filter (λ e, is_stream e = false) (events st).

Definition same_non_stream : relation session :=
  λ st st', non_stream st' = non_stream st.

(** What a sequence of console writes publishes in publish mode, and what
    it leaves in the capture buffer in capture mode. *)
Definition stream_events_of (ws : list console_write) : list event :=
  (λ w, stream_event (if decide (cw_otype w = 1%Z) then "stderr" else "stdout")
                     (cw_buf w)) <$> ws.

Definition captured_text (ws : list console_write) : string :=
  foldr (λ w acc, if decide (cw_otype w = 1%Z) then acc else cw_buf w +:+ acc)
        "" ws.

(** A companion library whose evaluation ends in a runtime error after
    writing to the console. *)
Definition hera_raises (f : string) (args : list SEXP) : native_call SEXP :=
  mk_native_call [mk_console_write "working" 0; mk_console_write "oops" 1] None.

Definition hera_matches (f : string) (args : list SEXP) : native_call SEXP :=
  mk_native_call []
    (Some (VECSXP [] [STRSXP ["print"; "prettyNum"]; INTSXP [0%Z; 3%Z]])).


(** * Properties *)

(** ** Strings *)

Lemma string_take_length (s : string) : string_take (String.length s) s = s.
Proof. induction s as [|c r IH]; simpl; [done | by rewrite IH]. Qed.

Lemma c_str_nul_free (s : string) : nul_free s = true → c_str s = s.
Proof.
  induction s as [|c r IH]; simpl; [done |].
  destruct (Ascii.eqb c zero); simpl; [done |].
  intros H. by rewrite IH.
Qed.

Lemma c_str_nul_free_list (x : list string) :
  Forall (λ s, nul_free s = true) x → c_str <$> x = x.
Proof.
  induction 1 as [|s x Hs _ IH]; [done |].
  rewrite fmap_cons, IH. f_equal. by apply c_str_nul_free.
Qed.

Lemma std_string_n_strlen (buf : string) :
  std_string_n buf (Z.of_nat (String.length buf)) = Some buf.
Proof.
  unfold std_string_n. rewrite decide_True by lia.
  by rewrite Nat2Z.id, string_take_length.
Qed.

(** ** Console Redirector *)

Lemma WriteConsoleEx_defined buf buflen otype st :
  (0 ≤ buflen ≤ Z.of_nat (String.length buf))%Z →
  WriteConsoleEx buf buflen otype st =
  Returned () (emit (stream_event (if decide (otype = 1%Z) then "stderr" else "stdout")
                                  (string_take (Z.to_nat buflen) buf)) st).
Proof.
  intros H. unfold WriteConsoleEx, std_string_n, mbind, M_bind.
  rewrite decide_True by done. simpl.
  by destruct (decide (otype = 1%Z)).
Qed.

Lemma capture_WriteConsoleEx_defined buf buflen otype st :
  (0 ≤ buflen ≤ Z.of_nat (String.length buf))%Z →
  capture_WriteConsoleEx buf buflen otype st =
  Returned () (if decide (otype = 1%Z) then st
               else capture (string_take (Z.to_nat buflen) buf) st).
Proof.
  intros H. unfold capture_WriteConsoleEx, std_string_n, mbind, M_bind.
  rewrite decide_True by done. simpl.
  by destruct (decide (otype = 1%Z)).
Qed.

(** C6. A console write of [buflen] bytes at [buf] on channel [otype]: in
    publish mode channel 1 becomes a "stderr" stream event and any other
    channel a "stdout" stream event, carrying exactly the first [buflen]
    bytes; in capture mode channel 1 leaves the session unchanged and any
    other channel appends those bytes to the capture buffer. *)
Theorem console_write_routing (buf : string) (buflen otype : Z) (st : session)
    (Hlen : (0 ≤ buflen ≤ Z.of_nat (String.length buf))%Z) :
  let output := string_take (Z.to_nat buflen) buf in
  (ptr_R_WriteConsoleEx st = publish_mode →
     (otype = 1%Z →
        R_WriteConsoleEx buf buflen otype st
        = Returned () (emit (stream_event "stderr" output) st)) ∧
     (otype ≠ 1%Z →
        R_WriteConsoleEx buf buflen otype st
        = Returned () (emit (stream_event "stdout" output) st))) ∧
  (ptr_R_WriteConsoleEx st = capture_mode →
     (otype = 1%Z → R_WriteConsoleEx buf buflen otype st = Returned () st) ∧
     (otype ≠ 1%Z →
        R_WriteConsoleEx buf buflen otype st
        = Returned () (capture output st))).
Proof.
  intros output. unfold R_WriteConsoleEx.
  split; intros ->.
  - rewrite WriteConsoleEx_defined by done.
    split; intros H; [by rewrite decide_True | by rewrite decide_False].
  - rewrite capture_WriteConsoleEx_defined by done.
    split; intros H; [by rewrite decide_True | by rewrite decide_False].
Qed.

Lemma console_write_routing_witness :
  R_WriteConsoleEx "hi!" 2 1 session0
  = Returned () (emit (stream_event "stderr" "hi") session0)
  ∧ R_WriteConsoleEx "hi!" 2 0 session0
  = Returned () (emit (stream_event "stdout" "hi") session0)
  ∧ R_WriteConsoleEx "hi!" 2 1 (mk_session [] "a" [] capture_mode)
  = Returned () (mk_session [] "a" [] capture_mode)
  ∧ R_WriteConsoleEx "hi!" 2 0 (mk_session [] "a" [] capture_mode)
  = Returned () (mk_session [] "ahi" [] capture_mode).
Proof.
  assert (Hlen : (0 ≤ 2 ≤ Z.of_nat (String.length "hi!"))%Z) by (simpl; lia).
  split; [| split; [| split]].
  - apply (console_write_routing "hi!" 2 1 session0 Hlen); reflexivity.
  - apply (console_write_routing "hi!" 2 0 session0 Hlen); [reflexivity | lia].
  - apply (console_write_routing "hi!" 2 1 (mk_session [] "a" [] capture_mode) Hlen);
      reflexivity.
  - apply (console_write_routing "hi!" 2 0 (mk_session [] "a" [] capture_mode) Hlen);
      [reflexivity | lia].
Defined.

Lemma R_WriteConsoleEx_strlen (w : console_write) (st : session) :
  R_WriteConsoleEx (cw_buf w) (Z.of_nat (String.length (cw_buf w))) (cw_otype w) st
  = Returned () (console_effect w st).
Proof.
  unfold R_WriteConsoleEx, console_effect.
  assert (H : (0 ≤ Z.of_nat (String.length (cw_buf w))
               ≤ Z.of_nat (String.length (cw_buf w)))%Z) by lia.
  destruct (ptr_R_WriteConsoleEx st).
  - rewrite WriteConsoleEx_defined by done.
    by rewrite Nat2Z.id, string_take_length.
  - rewrite capture_WriteConsoleEx_defined by done.
    by rewrite Nat2Z.id, string_take_length.
Qed.

Lemma write_console_spec (ws : list console_write) (st : session) :
  write_console ws st = Returned () (console_effects ws st).
Proof.
  revert st. induction ws as [|w ws IH]; intros st; [done |].
  simpl. unfold mbind, M_bind. rewrite R_WriteConsoleEx_strlen. apply IH.
Qed.

Lemma run_native_spec {A} (c : native_call A) (st : session) :
  run_native c st =
  match nc_result c with
  | Some a => Returned a (console_effects (nc_console c) st)
  | None => Raised (R_error "error in native evaluation")
                   (console_effects (nc_console c) st)
  end.
Proof.
  unfold run_native, mbind, M_bind. rewrite write_console_spec.
  by destruct (nc_result c).
Qed.

Lemma console_effects_R_PPStack ws st :
  R_PPStack (console_effects ws st) = R_PPStack st.
Proof.
  revert st. induction ws as [|w ws IH]; intros st; [done |].
  simpl. rewrite IH. unfold console_effect.
  destruct (ptr_R_WriteConsoleEx st); [done |].
  by destruct (decide _).
Qed.

(** ** Interactive Input Bridge *)

Lemma std_copy_lookup_outside src n i (mem : gmap Z ascii) j :
  ¬ (i ≤ j < i + Z.of_nat n)%Z → std_copy src n i mem !! j = mem !! j.
Proof.
  revert src i mem. induction n as [|k IH]; intros src i mem Hj; [reflexivity |].
  destruct src as [|c r]; [reflexivity |]. simpl.
  rewrite IH by lia. apply lookup_insert_ne. lia.
Qed.

Lemma size_t_int (length : Z) : (0 ≤ length < 2 ^ 31)%Z → size_t length = length.
Proof. intros H. unfold size_t. apply Z.mod_small. lia. Qed.

(** An answer shorter than the buffer stays inside it: no offset outside
    [0, length) changes. *)
Lemma ReadConsole_short_in_bounds input prompt (buffer : gmap Z ascii) length hist j :
  (0 ≤ length < 2 ^ 31)%Z →
  (Z.of_nat (String.length (input prompt false)) < length)%Z →
  ¬ (0 ≤ j < length)%Z →
  (ReadConsole input prompt buffer length hist).1 !! j = buffer !! j.
Proof.
  intros Hlen Hres Hj. unfold ReadConsole. simpl.
  rewrite size_t_int by done.
  rewrite Z.min_l by lia.
  rewrite lookup_insert_ne by lia.
  apply std_copy_lookup_outside. lia.
Qed.

(** An answer at least as long as the buffer puts the line break at offset
    [length], one past the last byte of the buffer. *)
Lemma ReadConsole_long_out_of_bounds input prompt (buffer : gmap Z ascii) length hist :
  (0 ≤ length < 2 ^ 31)%Z →
  (length ≤ Z.of_nat (String.length (input prompt false)))%Z →
  (ReadConsole input prompt buffer length hist).1 !! length = Some newline.
Proof.
  intros Hlen Hres. unfold ReadConsole. simpl.
  rewrite size_t_int by done.
  rewrite Z.min_r by lia.
  apply lookup_insert_eq.
Qed.

(** C4 (the code departs from it). When the client answers the four bytes
    "abcd" and the buffer has length 4, [ReadConsole] copies the four bytes
    and then stores the line break at offset 4, which is outside the bound
    [0, 4). *)
Theorem ReadConsole_writes_past_bound :
  (ReadConsole (λ _ _, "abcd") "> " ∅ 4 1).1 !! 4%Z = Some newline
  ∧ ¬ (0 ≤ 4 < 4)%Z.
Proof. split; [apply ReadConsole_long_out_of_bounds; simpl; lia | lia]. Qed.

(** C10. Whatever the client answers to the input request, whatever the
    prompt, the buffer and its length, [ReadConsole] returns 1 to the
    runtime. *)
Theorem ReadConsole_returns_1 (blocking_input_request : string → bool → string)
    (prompt : string) (buffer : gmap Z ascii) (length addtohistory : Z) :
  (ReadConsole blocking_input_request prompt buffer length addtohistory).2 = 1%Z.
Proof. reflexivity. Qed.

(** ** Result/Error Codec *)

Lemma CHAR_STRING_ELT_middle (pre post : list string) (p : string) :
  CHAR_STRING_ELT (STRSXP (pre ++ p :: post)) (length pre) = Some (c_str p).
Proof.
  unfold CHAR_STRING_ELT, STRING_ELT.
  by rewrite list_lookup_middle.
Qed.

(** The [push_back] loop, started at index [length pre] with the elements
    decoded so far in [acc], appends the decoding of the remaining ones. *)
Lemma push_back_loop (pre post : list string) (acc : list string) :
  for_loop (length post) (length pre)
    (λ i (trace_back : list string),
       s ← CHAR_STRING_ELT (STRSXP (pre ++ post)) i; Some (trace_back ++ [s])%list)
    acc
  = Some (acc ++ (c_str <$> post))%list.
Proof.
  revert pre acc. induction post as [|p post IH]; intros pre acc.
  - simpl. by rewrite app_nil_r.
  - simpl for_loop. rewrite CHAR_STRING_ELT_middle. simpl.
    specialize (IH (pre ++ [p])%list (acc ++ [c_str p])%list).
    rewrite length_app, Nat.add_1_r in IH. rewrite <- (assoc_L _ pre) in IH.
    simpl in IH. rewrite IH. by rewrite <- (assoc_L _ acc).
Qed.

(** The indexed-assignment loop over a vector pre-sized with empty strings:
    once the first [length pre] slots hold their decodings, the loop fills
    the remaining ones in place. *)
Lemma assign_loop (pre post : list string) :
  for_loop (length post) (length pre)
    (λ i (vec : list string),
       s ← CHAR_STRING_ELT (STRSXP (pre ++ post)) i; Some (<[i := s]> vec))
    ((c_str <$> pre) ++ replicate (length post) "")%list
  = Some (c_str <$> (pre ++ post))%list.
Proof.
  revert pre. induction post as [|p post IH]; intros pre.
  - simpl. by rewrite !app_nil_r.
  - simpl for_loop. rewrite CHAR_STRING_ELT_middle. simpl.
    rewrite insert_app_r_alt by (by rewrite length_fmap).
    rewrite length_fmap, Nat.sub_diag. simpl.
    specialize (IH (pre ++ [p])%list).
    rewrite length_app, Nat.add_1_r, fmap_app in IH.
    rewrite <- !(assoc_L (++)) in IH. exact IH.
Qed.

Lemma trace_back_of_STRSXP (x : list string) :
  trace_back_of (STRSXP x) = Some (c_str <$> x).
Proof. unfold trace_back_of. simpl. apply (push_back_loop [] x []). Qed.

Lemma json_from_character_vector_STRSXP (x : list string) :
  json_from_character_vector (STRSXP x) = Some (json_of_strings (c_str <$> x)).
Proof.
  unfold json_from_character_vector. simpl XLENGTH. cbv zeta.
  pose proof (assign_loop [] x) as H. simpl in H. by rewrite H.
Qed.

(** ** Reasoning about handlers *)

Lemma bind_Returned {A B} (m : M A) (f : A → M B) st a st' :
  m st = Returned a st' → (m ≫= f) st = f a st'.
Proof. intros H. unfold mbind, M_bind. by rewrite H. Qed.

Lemma set_R_PPStack_id st : set_R_PPStack (R_PPStack st) st = st.
Proof. by destruct st. Qed.

Lemma console_effect_set_R_PPStack w stack st :
  console_effect w (set_R_PPStack stack st)
  = set_R_PPStack stack (console_effect w st).
Proof.
  unfold console_effect. simpl.
  destruct (ptr_R_WriteConsoleEx st); [done |].
  by destruct (decide _).
Qed.

Lemma console_effects_set_R_PPStack ws stack st :
  console_effects ws (set_R_PPStack stack st)
  = set_R_PPStack stack (console_effects ws st).
Proof.
  revert st. induction ws as [|w ws IH]; intros st; [done |].
  simpl. by rewrite console_effect_set_R_PPStack, IH.
Qed.

Lemma UNPROTECT_3 a b c stack st :
  R_PPStack st = a :: b :: c :: stack →
  UNPROTECT 3 st = Returned () (set_R_PPStack stack st).
Proof. intros H. unfold UNPROTECT. by rewrite H. Qed.


Section Preservation.

Variable R : relation session.
Variable allowed : event → Prop.
Context `{!PreOrder R}.
Hypothesis R_emit : ∀ e st, allowed e → R st (emit e st).
Hypothesis R_capture : ∀ s st, R st (capture s st).
Hypothesis R_stack : ∀ stack st, R st (set_R_PPStack stack st).
Hypothesis allowed_other : ∀ e, is_execution_result e = false → allowed e.

Lemma preserves_ret {A} (a : A) : preserves R (mret a).
Proof. intros st. simpl. reflexivity. Qed.

Lemma preserves_raise {A} e : preserves R (@raise A e).
Proof. intros st. simpl. reflexivity. Qed.

Lemma preserves_bind {A B} (m : M A) (f : A → M B) :
  preserves R m → (∀ a, preserves R (f a)) → preserves R (m ≫= f).
Proof.
  intros Hm Hf st. specialize (Hm st). unfold mbind, M_bind.
  destruct (m st) as [a st'|e st']; simpl in *; [| done].
  by etrans; [| apply Hf].
Qed.

Lemma preserves_R_try {A} (o : option A) : preserves R (R_try o).
Proof. destruct o; [apply preserves_ret | apply preserves_raise]. Qed.

Lemma preserves_cpp_try {A} what (o : option A) : preserves R (cpp_try what o).
Proof. destruct o; [apply preserves_ret | apply preserves_raise]. Qed.

Lemma preserves_emit e : allowed e → preserves R (modify (emit e)).
Proof. intros He st. simpl. by apply R_emit. Qed.

Lemma preserves_PROTECT x : preserves R (PROTECT x).
Proof. intros st. simpl. apply R_stack. Qed.

Lemma preserves_UNPROTECT n : preserves R (UNPROTECT n).
Proof.
  intros st. unfold UNPROTECT.
  destruct (_ <=? _)%nat; simpl; [apply R_stack | reflexivity].
Qed.

Lemma R_console_effects ws st : R st (console_effects ws st).
Proof.
  revert st. induction ws as [|w ws IH]; intros st; simpl; [reflexivity |].
  etrans; [| apply IH]. unfold console_effect.
  destruct (ptr_R_WriteConsoleEx st).
  - by apply R_emit, allowed_other.
  - destruct (decide _); [reflexivity | apply R_capture].
Qed.

Lemma preserves_run_native {A} (c : native_call A) : preserves R (run_native c).
Proof.
  intros st. rewrite run_native_spec.
  destruct (nc_result c); simpl; apply R_console_effects.
Qed.

Lemma preserves_bind_PROTECT {B} x (f : SEXP → M B) :
  preserves R (f x) → preserves R (PROTECT x ≫= f).
Proof.
  intros Hf st. unfold mbind, M_bind. simpl.
  etrans; [apply (R_stack (x :: R_PPStack st)) | apply Hf].
Qed.

Lemma preserves_bind_run_native {A B} (c : native_call A) (f : A → M B) :
  (∀ a, nc_result c = Some a → preserves R (f a)) →
  preserves R (run_native c ≫= f).
Proof.
  intros Hf st. unfold mbind, M_bind. rewrite run_native_spec.
  pose proof (R_console_effects (nc_console c) st) as Hc.
  destruct (nc_result c) as [a|]; simpl; [| done].
  etrans; [exact Hc | by apply Hf].
Qed.

Ltac preserves_step :=
  first
    [ apply preserves_ret
    | apply preserves_R_try
    | apply preserves_cpp_try
    | apply preserves_UNPROTECT
    | apply preserves_bind_PROTECT
    | apply preserves_emit
    | apply allowed_other; reflexivity
    | apply preserves_bind; [| intros ?] ].

(** Every step of [execute_request_impl] maintains [R], provided an
    execution-result event is allowed whenever the companion library
    returns a value tagged [execution_result]. *)
Lemma preserves_execute_request_impl invoke_hera_fn json_parse n code config :
  (∀ result,
     nc_result (invoke_hera_fn "execute"
       [Rf_mkString (c_str code); Rf_ScalarInteger n;
        Rf_ScalarLogical (silent config)]) = Some result →
     Rf_inherits result "execution_result" = true →
     ∀ data metadata, allowed (execution_result_event n data metadata)) →
  preserves R (execute_request_impl invoke_hera_fn json_parse n code config).
Proof.
  intros Hres. unfold execute_request_impl.
  unfold store_inputs, publish_execution_error, publish_execution_result, cb.
  apply preserves_bind; [| intros _].
  { destruct (store_history config); repeat preserves_step. }
  do 3 apply preserves_bind_PROTECT.
  apply preserves_bind_run_native. intros result Hresult.
  apply preserves_bind; [| intros _].
  { destruct (Rf_inherits result "error_reply"); repeat preserves_step.
    destruct (_ <? _)%nat; repeat preserves_step. }
  apply preserves_bind; [| intros _]; [| repeat preserves_step].
  destruct (Rf_inherits result "execution_result") eqn:Htag;
    repeat preserves_step.
  by apply (Hres result).
Qed.

End Preservation.


#[local] Instance same_results_preorder : PreOrder same_results.
Proof.
  split; [intros st; by unfold same_results |].
  intros a b c Hab Hbc. unfold same_results in *. congruence.
Qed.

#[local] Instance events_extend_preorder : PreOrder events_extend.
Proof.
  split; [intros st; by unfold events_extend |].
  intros a b c Hab Hbc. unfold events_extend in *. by etrans.
Qed.

Lemma results_emit e st :
  results (emit e st)
  = (results st ++ if is_execution_result e then [e] else [])%list.
Proof.
  unfold results. simpl. rewrite filter_app. f_equal.
  destruct (is_execution_result e) eqn:He.
  - by rewrite filter_cons_True.
  - rewrite filter_cons_False; [done | congruence].
Qed.


Lemma same_results_emit e st :
  is_execution_result e = false → same_results st (emit e st).
Proof. intros He. unfold same_results. by rewrite results_emit, He, app_nil_r. Qed.

Lemma same_results_console_effects ws st :
  results (console_effects ws st) = results st.
Proof.
  apply (R_console_effects same_results (λ e, is_execution_result e = false));
    [apply same_results_emit | done | done].
Qed.

Lemma events_extend_emit e st : events_extend st (emit e st).
Proof. unfold events_extend. simpl. by apply prefix_app_r. Qed.

Lemma events_extend_stack stack st : events_extend st (set_R_PPStack stack st).
Proof. by unfold events_extend. Qed.

Lemma session_eq st st' :
  events st = events st' →
  capture_stream st = capture_stream st' →
  R_PPStack st = R_PPStack st' →
  ptr_R_WriteConsoleEx st = ptr_R_WriteConsoleEx st' →
  st = st'.
Proof. destruct st, st'. simpl. by intros -> -> -> ->. Qed.

Lemma history_effect_R_PPStack n code config st :
  R_PPStack (history_effect n code config st) = R_PPStack st.
Proof. unfold history_effect. by destruct (store_history config). Qed.

Lemma history_effect_results n code config st :
  results (history_effect n code config st) = results st.
Proof.
  unfold history_effect. destruct (store_history config); [| done].
  by apply same_results_emit.
Qed.

(** One step of a computation that only appends events. *)
Ltac extend_step :=
  first
    [ apply (preserves_ret events_extend)
    | apply (preserves_R_try events_extend)
    | apply (preserves_cpp_try events_extend)
    | apply (preserves_UNPROTECT events_extend events_extend_stack)
    | apply (preserves_emit events_extend (λ _, True)
               (λ e st _, events_extend_emit e st)); exact I
    | apply (preserves_bind events_extend); [| intros ?]
    | match goal with |- preserves _ (if ?b then _ else _) => destruct b end ].

(** [UNPROTECT(3)] after the three pushes of a handler and a native call. *)
Ltac unprotect_3 :=
  erewrite bind_Returned;
    [| eapply UNPROTECT_3; simpl; rewrite console_effects_R_PPStack; reflexivity].

(** The session a balanced handler leaves is the one its native call left. *)
Ltac finish_balanced :=
  f_equal; rewrite !console_effects_set_R_PPStack;
  apply session_eq; simpl; try done;
  by rewrite ?console_effects_R_PPStack.

(** The opening of [execute_request_impl]: history, three pushes, the call. *)
Ltac execute_prologue Hcall n code config st :=
  unfold execute_request_impl;
  erewrite (bind_Returned _ _ st () (history_effect n code config st));
    [| unfold history_effect; by destruct (store_history config)];
  do 3 (erewrite bind_Returned; [| reflexivity]);
  fold (execute_args n code config);
  erewrite bind_Returned; [| rewrite run_native_spec, Hcall; reflexivity].

(** ** Request Bridge: Execute *)

(** A result carrying neither tag: the success reply alone, protection
    stack as found. *)
Lemma execute_untagged_spec invoke_hera_fn json_parse n code config st ws result :
  invoke_hera_fn "execute" (execute_args n code config)
  = mk_native_call ws (Some result) →
  Rf_inherits result "error_reply" = false →
  Rf_inherits result "execution_result" = false →
  execute_request_impl invoke_hera_fn json_parse n code config st
  = Returned ()
      (emit (send_reply create_successful_reply)
         (console_effects ws (history_effect n code config st))).
Proof.
  intros Hcall Herr Hres.
  execute_prologue Hcall n code config st.
  rewrite Herr, Hres.
  do 2 (erewrite bind_Returned; [| reflexivity]).
  unprotect_3. unfold cb, modify. finish_balanced.
Qed.

(** A well-formed [execution_result]: the execution-result event, then the
    success reply, protection stack as found. *)
Lemma execute_execution_result_spec invoke_hera_fn json_parse n code config st
    ws klass d ds m ms rest data metadata :
  invoke_hera_fn "execute" (execute_args n code config)
  = mk_native_call ws (Some (VECSXP klass
      (STRSXP (d :: ds) :: STRSXP (m :: ms) :: rest))) →
  "execution_result" ∈ klass →
  "error_reply" ∉ klass →
  json_parse (c_str d) = Some data →
  json_parse (c_str m) = Some metadata →
  execute_request_impl invoke_hera_fn json_parse n code config st
  = Returned ()
      (emit (send_reply create_successful_reply)
         (emit (execution_result_event n data metadata)
            (console_effects ws (history_effect n code config st)))).
Proof.
  intros Hcall Hres Herr Hd Hm.
  execute_prologue Hcall n code config st.
  unfold Rf_inherits.
  rewrite (bool_decide_eq_false_2 _ Herr), (bool_decide_eq_true_2 _ Hres).
  erewrite bind_Returned; [| reflexivity].
  erewrite bind_Returned.
  2:{ do 3 (erewrite bind_Returned; [| reflexivity]).
      erewrite bind_Returned; [| simpl; rewrite Hd; reflexivity].
      erewrite bind_Returned; [| reflexivity].
      erewrite bind_Returned; [| simpl; rewrite Hm; reflexivity].
      reflexivity. }
  unprotect_3. unfold cb, modify. finish_balanced.
Qed.

(** A well-formed [error_reply]: the error event and the error reply, and
    then, the branch not returning, a second [UNPROTECT(3)] and the success
    reply, or the runtime's error when fewer than three other values are
    protected. *)
Lemma execute_error_reply_spec invoke_hera_fn json_parse n code config st
    ws klass evalue es ename ns x rest :
  invoke_hera_fn "execute" (execute_args n code config)
  = mk_native_call ws (Some (VECSXP klass
      (STRSXP (evalue :: es) :: STRSXP (ename :: ns) :: STRSXP x :: rest))) →
  "error_reply" ∈ klass →
  "execution_result" ∉ klass →
  let st_e :=
    emit (send_reply (create_error_reply (c_str evalue) (c_str ename) (c_str <$> x)))
      (emit (execution_error_event (c_str evalue) (c_str ename) (c_str <$> x))
         (console_effects ws (history_effect n code config st))) in
  execute_request_impl invoke_hera_fn json_parse n code config st
  = if (3 <=? length (R_PPStack st))%nat
    then Returned ()
           (emit (send_reply create_successful_reply)
              (set_R_PPStack (drop 3 (R_PPStack st)) st_e))
    else Raised (R_error "unprotect(): stack imbalance") st_e.
Proof.
  intros Hcall Herr Hres st_e.
  execute_prologue Hcall n code config st.
  unfold Rf_inherits.
  rewrite (bool_decide_eq_true_2 _ Herr), (bool_decide_eq_false_2 _ Hres).
  erewrite (bind_Returned _ _ _ () st_e).
  2:{ do 2 (erewrite bind_Returned; [| reflexivity]).
      erewrite bind_Returned; [| simpl; rewrite trace_back_of_STRSXP; reflexivity].
      erewrite bind_Returned; [| reflexivity].
      unprotect_3. unfold cb, modify, st_e. finish_balanced. }
  erewrite bind_Returned; [| reflexivity].
  assert (Hstack : R_PPStack st_e = R_PPStack st).
  { unfold st_e. simpl.
    by rewrite console_effects_R_PPStack, history_effect_R_PPStack. }
  unfold mbind, M_bind, UNPROTECT. rewrite Hstack.
  by destruct (3 <=? length (R_PPStack st))%nat.
Qed.

(** Whatever else its class says and whatever follows, a well-formed
    [error_reply] puts the error event and the error reply, both with the
    decoded trace, right after the console output of the call. *)
Lemma execute_error_reply_events invoke_hera_fn json_parse n code config st
    ws klass evalue es ename ns x rest :
  invoke_hera_fn "execute" (execute_args n code config)
  = mk_native_call ws (Some (VECSXP klass
      (STRSXP (evalue :: es) :: STRSXP (ename :: ns) :: STRSXP x :: rest))) →
  "error_reply" ∈ klass →
  ∃ tail,
    events (final (execute_request_impl invoke_hera_fn json_parse n code config st))
    = (events (console_effects ws (history_effect n code config st))
       ++ [execution_error_event (c_str evalue) (c_str ename) (c_str <$> x);
           send_reply (create_error_reply (c_str evalue) (c_str ename) (c_str <$> x))]
       ++ tail)%list.
Proof.
  intros Hcall Hklass.
  execute_prologue Hcall n code config st.
  erewrite bind_Returned.
  2:{ unfold Rf_inherits. rewrite bool_decide_eq_true_2 by done.
      do 2 (erewrite bind_Returned; [| reflexivity]).
      erewrite bind_Returned; [| simpl; rewrite trace_back_of_STRSXP; reflexivity].
      erewrite bind_Returned; [| reflexivity].
      unprotect_3. reflexivity. }
  match goal with
  | |- context [final (?K ?s)] =>
      assert (HK : preserves events_extend K) by repeat extend_step;
      destruct (HK s) as [tail Htail]
  end.
  exists tail. rewrite Htail. simpl.
  rewrite !console_effects_set_R_PPStack. simpl.
  by rewrite <- !(assoc_L (++)).
Qed.

(** C1 (the code departs from it). An Execute request whose native result
    is an [error_reply], entered with three values protected by an enclosing
    frame: the callback is called twice, first with the error reply and then
    with the success reply. *)
Theorem execute_error_reply_sends_two_replies :
  replies (final (execute_request_impl hera_boom parse_as_text 1
                    "stop('boom')" default_config session_in_frame))
  = [create_error_reply "boom" "simpleError" ["f()"; "stop('boom')"];
     create_successful_reply].
Proof. reflexivity. Qed.

(** C2 (the code departs from it). On the same request the handler returns
    normally having pushed three values and popped six: the three values
    the enclosing frame had protected are gone from the protection stack. *)
Theorem execute_error_reply_unbalances_stack :
  let o := execute_request_impl hera_boom parse_as_text 1
             "stop('boom')" default_config session_in_frame in
  o = Returned () (final o)
  ∧ length (R_PPStack session_in_frame) = 3
  ∧ R_PPStack (final o) = [].
Proof. split; [reflexivity | split; reflexivity]. Qed.

(** Entered with an empty protection stack, the error branch still sends its
    error reply; the second [UNPROTECT(3)] then finds nothing to pop. *)
Lemma execute_error_reply_underflow :
  execute_request_impl hera_boom parse_as_text 1 "stop('boom')" default_config
    session0
  = Raised (R_error "unprotect(): stack imbalance")
      (mk_session
         [store_inputs_event 0 1 "stop('boom')";
          execution_error_event "boom" "simpleError" ["f()"; "stop('boom')"];
          send_reply (create_error_reply "boom" "simpleError"
                        ["f()"; "stop('boom')"])]
         "" [] publish_mode).
Proof. reflexivity. Qed.

(** An exception thrown by the parser of the payload leaves the handler
    with its three values still protected. *)
Lemma execute_parse_error_leaves_protected :
  execute_request_impl hera_truncated parse_refuses 1 "1 + 1" silent_config
    session0
  = Raised (std_exception "parse_error")
      (mk_session [] ""
         [Rf_ScalarLogical true; Rf_ScalarInteger 1; Rf_mkString "1 + 1"]
         publish_mode).
Proof. reflexivity. Qed.

(** C7. A native character vector [x] (its elements free of NUL bytes, as the
    runtime's strings are) decodes to the JSON array of the same strings in
    the same order, whatever its length; and an Execute request answered by
    an [error_reply] whose third element is [x] publishes an error event and
    sends an error reply whose trace is exactly [x]. *)
Theorem character_vector_order_preserved (x : list string)
    (Hx : Forall (λ s, nul_free s = true) x) :
  json_from_character_vector (STRSXP x) = Some (json_array (json_string <$> x))
  ∧ ∀ invoke_hera_fn json_parse n code config st ws klass evalue es ename ns rest,
      invoke_hera_fn "execute" (execute_args n code config)
      = mk_native_call ws (Some (VECSXP klass
          (STRSXP (evalue :: es) :: STRSXP (ename :: ns) :: STRSXP x :: rest))) →
      "error_reply" ∈ klass →
      ∃ tail,
        events (final (execute_request_impl invoke_hera_fn json_parse n code
                         config st))
        = (events (console_effects ws (history_effect n code config st))
           ++ [execution_error_event (c_str evalue) (c_str ename) x;
               send_reply (create_error_reply (c_str evalue) (c_str ename) x)]
           ++ tail)%list.
Proof.
  pose proof (c_str_nul_free_list x Hx) as Hdec. split.
  - rewrite json_from_character_vector_STRSXP. by rewrite Hdec.
  - intros invoke_hera_fn json_parse n code config st ws klass evalue es ename ns
      rest Hcall Hklass.
    destruct (execute_error_reply_events invoke_hera_fn json_parse n code config
                st ws klass evalue es ename ns x rest Hcall Hklass) as [tail Htail].
    exists tail. by rewrite Hdec in Htail.
Qed.

Lemma character_vector_order_preserved_witness :
  json_from_character_vector (STRSXP ["f()"; "stop('boom')"])
  = Some (json_array [json_string "f()"; json_string "stop('boom')"])
  ∧ ∃ tail,
      events (final (execute_request_impl hera_boom parse_as_text 1
                       "stop('boom')" default_config session0))
      = (events (console_effects [] (history_effect 1 "stop('boom')"
                                       default_config session0))
         ++ [execution_error_event "boom" "simpleError" ["f()"; "stop('boom')"];
             send_reply (create_error_reply "boom" "simpleError"
                           ["f()"; "stop('boom')"])]
         ++ tail)%list.
Proof.
  assert (Hx : Forall (λ s, nul_free s = true) ["f()"; "stop('boom')"])
    by (repeat constructor).
  split.
  - apply (character_vector_order_preserved _ Hx).
  - apply (proj2 (character_vector_order_preserved _ Hx)
             hera_boom parse_as_text 1%Z "stop('boom')" default_config session0
             [] ["error_reply"] "boom" [] "simpleError" [] []).
    + reflexivity.
    + apply list_elem_of_here.
Defined.

(** C8 as stated fails: with [silent = true] and a companion library that
    returns an [execution_result], the execution-result event is published. *)
Lemma silent_execute_publishes_result :
  silent silent_config = true
  ∧ events (final (execute_request_impl hera_visible parse_as_text 1 "1 + 1"
                     silent_config session0))
    = [execution_result_event 1 (json_string "{}") (json_string "{}");
       send_reply create_successful_reply].
Proof. split; reflexivity. Qed.

(** C8, amended. On an Execute request with [silent = true] the bridge hands
    the flag to the companion library's [execute] and lets the tag of the
    returned value decide: a value not tagged [execution_result] publishes no
    execution-result event, however the request ends; a well-formed value
    tagged [execution_result] (and not [error_reply]) publishes the event. *)
Theorem silent_execute_result_event_by_tag
    invoke_hera_fn json_parse n code config st ws result
    (Hsilent : silent config = true)
    (Hcall : invoke_hera_fn "execute"
               [Rf_mkString (c_str code); Rf_ScalarInteger n; Rf_ScalarLogical true]
             = mk_native_call ws (Some result)) :
  (Rf_inherits result "execution_result" = false →
     results (final (execute_request_impl invoke_hera_fn json_parse n code config st))
     = results st)
  ∧ (∀ klass d ds m ms rest data metadata,
       result = VECSXP klass (STRSXP (d :: ds) :: STRSXP (m :: ms) :: rest) →
       "execution_result" ∈ klass →
       "error_reply" ∉ klass →
       json_parse (c_str d) = Some data →
       json_parse (c_str m) = Some metadata →
       results (final (execute_request_impl invoke_hera_fn json_parse n code
                         config st))
       = (results st ++ [execution_result_event n data metadata])%list).
Proof.
  assert (Hargs : invoke_hera_fn "execute" (execute_args n code config)
                  = mk_native_call ws (Some result))
    by (unfold execute_args; by rewrite Hsilent).
  split.
  - intros Htag.
    apply (preserves_execute_request_impl same_results
             (λ e, is_execution_result e = false));
      [apply same_results_emit | done | done | done |].
    intros result' Hresult' Htag'. fold (execute_args n code config) in Hresult'.
    rewrite Hargs in Hresult'. simpl in Hresult'. congruence.
  - intros klass d ds m ms rest data metadata -> Hres Herr Hd Hm.
    erewrite execute_execution_result_spec by done. simpl.
    rewrite !results_emit. simpl. rewrite app_nil_r.
    by rewrite same_results_console_effects, history_effect_results.
Qed.

Lemma silent_execute_result_event_by_tag_witness :
  results (final (execute_request_impl hera_invisible parse_as_text 1 "x <- 1"
                    silent_config session0))
  = results session0
  ∧ results (final (execute_request_impl hera_visible parse_as_text 1 "1 + 1"
                      silent_config session0))
    = (results session0
       ++ [execution_result_event 1 (json_string "{}") (json_string "{}")])%list.
Proof.
  split.
  - apply (silent_execute_result_event_by_tag hera_invisible parse_as_text 1%Z
             "x <- 1" silent_config session0 [] R_NilValue);
      reflexivity.
  - apply (proj2 (silent_execute_result_event_by_tag hera_visible parse_as_text
                    1%Z "1 + 1" silent_config session0 [] _ eq_refl eq_refl)
             ["execution_result"] "{}" [] "{}" [] []);
      try reflexivity.
    + apply list_elem_of_here.
    + by intros ?%list_elem_of_singleton.
Defined.

(** ** Completeness Classifier *)

Lemma is_complete_request_impl_spec R_ParseVector code_ st :
  is_complete_request_impl R_ParseVector code_ st
  = Returned
      (create_is_complete_reply
         match R_ParseVector (Rf_mkString (c_str code_)) with
         | Some PARSE_INCOMPLETE => "incomplete"
         | Some PARSE_ERROR => "invalid"
         | Some _ => "complete"
         | None => "invalid"
         end "") st.
Proof.
  unfold is_complete_request_impl.
  erewrite bind_Returned; [| reflexivity].
  unfold mbind at 1, M_bind at 1, R_tryCatchError, is_complete_body.
  unfold mbind at 1, M_bind at 1.
  destruct (R_ParseVector (Rf_mkString (c_str code_))) as [[]|]; simpl;
    f_equal; by destruct st.
Qed.

(** C3. Whatever the source text, [is_complete_request_impl] returns, with
    the session as it found it, the reply tagged "incomplete" when the
    parser's status is PARSE_INCOMPLETE, "invalid" when it is PARSE_ERROR,
    "complete" when it is PARSE_OK, and "invalid" when the parser raises an
    error instead of returning; in every case the reply carries one of these
    three tags and an empty hint. *)
Theorem is_complete_classification R_ParseVector (code_ : string) (st : session) :
  let parsed := R_ParseVector (Rf_mkString (c_str code_)) in
  let answer tag := Returned (create_is_complete_reply tag "") st in
  (parsed = Some PARSE_INCOMPLETE →
     is_complete_request_impl R_ParseVector code_ st = answer "incomplete")
  ∧ (parsed = Some PARSE_ERROR →
       is_complete_request_impl R_ParseVector code_ st = answer "invalid")
  ∧ (parsed = Some PARSE_OK →
       is_complete_request_impl R_ParseVector code_ st = answer "complete")
  ∧ (parsed = None →
       is_complete_request_impl R_ParseVector code_ st = answer "invalid")
  ∧ ∃ tag, tag ∈ ["complete"; "incomplete"; "invalid"]
           ∧ is_complete_request_impl R_ParseVector code_ st = answer tag.
Proof.
  intros parsed answer. rewrite is_complete_request_impl_spec. fold parsed.
  repeat split; try (by intros ->).
  destruct parsed as [[]|]; eexists; (split; [| reflexivity]); set_solver.
Qed.

Lemma is_complete_classification_witness :
  is_complete_request_impl (λ _, Some PARSE_INCOMPLETE) "1 + " session0
  = Returned (create_is_complete_reply "incomplete" "") session0
  ∧ is_complete_request_impl (λ _, Some PARSE_ERROR) "1 +++ )" session0
    = Returned (create_is_complete_reply "invalid" "") session0
  ∧ is_complete_request_impl (λ _, Some PARSE_OK) "1 + 1" session0
    = Returned (create_is_complete_reply "complete" "") session0
  ∧ is_complete_request_impl (λ _, None) "'\x" session0
    = Returned (create_is_complete_reply "invalid" "") session0.
Proof.
  split; [| split; [| split]].
  - apply (proj1 (is_complete_classification
                    (λ _, Some PARSE_INCOMPLETE) "1 + " session0)).
    reflexivity.
  - apply (proj1 (proj2 (is_complete_classification
                           (λ _, Some PARSE_ERROR) "1 +++ )" session0))).
    reflexivity.
  - apply (proj1 (proj2 (proj2 (is_complete_classification
                                  (λ _, Some PARSE_OK) "1 + 1" session0)))).
    reflexivity.
  - apply (proj1 (proj2 (proj2 (proj2 (is_complete_classification
                                         (λ _, None) "'\x" session0))))).
    reflexivity.
Defined.

(** ** Request Bridge: Complete, Inspect, Configure *)

(** A well-formed completion result: the decoded matches and the span, the
    session as the native call left it, protection stack as found. *)
Lemma complete_request_impl_spec invoke_hera_fn code cursor_pos st
    ws klass x a b span rest :
  invoke_hera_fn "complete" (request_args code cursor_pos)
  = mk_native_call ws
      (Some (VECSXP klass (STRSXP x :: INTSXP (a :: b :: span) :: rest))) →
  complete_request_impl invoke_hera_fn code cursor_pos st
  = Returned (create_complete_reply (json_of_strings (c_str <$> x)) a b)
             (console_effects ws st).
Proof.
  intros Hcall. unfold complete_request_impl.
  do 2 (erewrite bind_Returned; [| reflexivity]).
  fold (request_args code cursor_pos).
  erewrite bind_Returned; [| rewrite run_native_spec, Hcall; reflexivity].
  erewrite bind_Returned; [| reflexivity].
  erewrite bind_Returned;
    [| simpl; rewrite json_from_character_vector_STRSXP; reflexivity].
  do 2 (erewrite bind_Returned; [| reflexivity]).
  unprotect_3. unfold mret, M_ret. finish_balanced.
Qed.

Lemma inspect_not_found_spec invoke_hera_fn json_parse code cursor_pos detail_level
    st ws klass vs rest :
  invoke_hera_fn "inspect" (request_args code cursor_pos)
  = mk_native_call ws (Some (VECSXP klass (LGLSXP (0%Z :: vs) :: rest))) →
  inspect_request_impl invoke_hera_fn json_parse code cursor_pos detail_level st
  = Returned (create_inspect_reply false (json_object [])) (console_effects ws st).
Proof.
  intros Hcall. unfold inspect_request_impl.
  do 2 (erewrite bind_Returned; [| reflexivity]).
  fold (request_args code cursor_pos).
  erewrite bind_Returned; [| rewrite run_native_spec, Hcall; reflexivity].
  do 2 (erewrite bind_Returned; [| reflexivity]).
  rewrite Z.eqb_refl. cbn [negb].
  unprotect_3. unfold mret, M_ret. finish_balanced.
Qed.

Lemma inspect_found_spec invoke_hera_fn json_parse code cursor_pos detail_level
    st ws klass v vs s ss rest data :
  invoke_hera_fn "inspect" (request_args code cursor_pos)
  = mk_native_call ws
      (Some (VECSXP klass (LGLSXP (v :: vs) :: STRSXP (s :: ss) :: rest))) →
  v ≠ 0%Z →
  json_parse (c_str s) = Some data →
  inspect_request_impl invoke_hera_fn json_parse code cursor_pos detail_level st
  = Returned (create_inspect_reply true data) (console_effects ws st).
Proof.
  intros Hcall Hv Hdata. unfold inspect_request_impl.
  do 2 (erewrite bind_Returned; [| reflexivity]).
  fold (request_args code cursor_pos).
  erewrite bind_Returned; [| rewrite run_native_spec, Hcall; reflexivity].
  do 2 (erewrite bind_Returned; [| reflexivity]).
  apply Z.eqb_neq in Hv. rewrite Hv. cbn [negb].
  erewrite bind_Returned; [| reflexivity].
  erewrite bind_Returned; [| simpl; rewrite Hdata; reflexivity].
  unprotect_3. unfold mret, M_ret. finish_balanced.
Qed.

(** C9. An Inspect request whose native result has found flag [v]: when [v]
    is FALSE the handler returns the negative inspection reply at once,
    whatever follows the flag in the result and whatever the parser would do
    (no payload is read or parsed); otherwise it parses the payload string
    and returns the positive inspection reply carrying the parsed data. *)
Theorem inspect_reply_by_found_flag
    invoke_hera_fn json_parse code cursor_pos detail_level st ws klass v vs rest
    (Hcall : invoke_hera_fn "inspect"
               [Rf_mkString (c_str code); Rf_ScalarInteger cursor_pos]
             = mk_native_call ws (Some (VECSXP klass (LGLSXP (v :: vs) :: rest)))) :
  (v = 0%Z →
     inspect_request_impl invoke_hera_fn json_parse code cursor_pos detail_level st
     = Returned (create_inspect_reply false (json_object []))
                (console_effects ws st))
  ∧ (v ≠ 0%Z →
     ∀ s ss rest' data,
       rest = STRSXP (s :: ss) :: rest' →
       json_parse (c_str s) = Some data →
       inspect_request_impl invoke_hera_fn json_parse code cursor_pos
         detail_level st
       = Returned (create_inspect_reply true data) (console_effects ws st)).
Proof.
  split.
  - intros ->. by eapply inspect_not_found_spec.
  - intros Hv s ss rest' data -> Hdata. by eapply inspect_found_spec.
Qed.

Lemma inspect_reply_by_found_flag_witness :
  inspect_request_impl hera_not_found (λ _, None) "pri" 3 0 session0
  = Returned (create_inspect_reply false (json_object [])) session0
  ∧ inspect_request_impl hera_found parse_as_text "print" 5 0 session0
    = Returned (create_inspect_reply true (json_string "{}")) session0.
Proof.
  split.
  - apply (inspect_reply_by_found_flag hera_not_found (λ _, None) "pri" 3%Z 0%Z
             session0 [] [] 0%Z [] []);
      reflexivity.
  - apply (proj2 (inspect_reply_by_found_flag hera_found parse_as_text "print"
                    5%Z 0%Z session0 [] [] 1%Z [] _ eq_refl))
      with (s := "{}") (ss := []) (rest' := []);
      [lia | reflexivity | reflexivity].
Defined.

Lemma configure_impl_spec r_call Rf_eval st ws v vs :
  Rf_eval (require_hera_call r_call) = mk_native_call ws (Some (LGLSXP (v :: vs))) →
  configure_impl r_call Rf_eval st = Returned () (console_effects ws st).
Proof.
  intros Hcall. unfold configure_impl.
  do 2 (erewrite bind_Returned; [| reflexivity]).
  fold (require_hera_call r_call).
  erewrite bind_Returned; [| rewrite run_native_spec, Hcall; reflexivity].
  do 2 (erewrite bind_Returned; [| reflexivity]).
  erewrite bind_Returned; [| by destruct (decide (v = 0%Z))].
  unfold UNPROTECT. simpl. rewrite console_effects_R_PPStack. simpl.
  finish_balanced.
Qed.

(** C5 (the code departs from it). When evaluating
    [require("hera", quietly = TRUE)] yields FALSE, [configure_impl] returns
    normally, raising nothing and emitting nothing of its own: the outcome
    is the one it has when the library loads. *)
Theorem configure_impl_ignores_load_failure
    (r_call : string → list SEXP → SEXP) (ws : list console_write) (st : session) :
  configure_impl r_call (λ _, mk_native_call ws (Some (Rf_ScalarLogical false))) st
  = Returned () (console_effects ws st)
  ∧ configure_impl r_call (λ _, mk_native_call ws (Some (Rf_ScalarLogical false))) st
    = configure_impl r_call (λ _, mk_native_call ws (Some (Rf_ScalarLogical true))) st.
Proof.
  split.
  - by erewrite configure_impl_spec.
  - by erewrite !configure_impl_spec.
Qed.

(** * Further properties of the bridge *)

(** ** Interactive Input Bridge: what ends up in the buffer *)

Lemma std_copy_lookup_inside src n i (mem : gmap Z ascii) k :
  (k < n)%nat → (n ≤ String.length src)%nat →
  std_copy src n i mem !! (i + Z.of_nat k)%Z = String.get k src.
Proof.
  revert src i mem k. induction n as [|n IH]; intros src i mem k Hk Hn; [lia |].
  destruct src as [|c r]; simpl in Hn; [lia |]. simpl std_copy.
  destruct k as [|k].
  - rewrite Z.add_0_r, std_copy_lookup_outside by lia.
    by rewrite lookup_insert_eq.
  - replace (i + Z.of_nat (S k))%Z with ((i + 1) + Z.of_nat k)%Z by lia.
    rewrite IH by lia. reflexivity.
Qed.

(** X1. When the client's answer is shorter than the buffer, [ReadConsole]
    leaves the answer at offsets [0 .. size-1], the line break at offset
    [size], and every other offset as it was: in particular nothing, and no
    terminating NUL, is stored after the line break. *)
Theorem ReadConsole_short_answer_layout
    (input : string → bool → string) (prompt : string)
    (buffer : gmap Z ascii) (length hist : Z)
    (Hlen : (0 ≤ length < 2 ^ 31)%Z)
    (Hres : (Z.of_nat (String.length (input prompt false)) < length)%Z) :
  let res := input prompt false in
  let after := (ReadConsole input prompt buffer length hist).1 in
  (∀ k, (k < String.length res)%nat → after !! Z.of_nat k = String.get k res)
  ∧ after !! Z.of_nat (String.length res) = Some newline
  ∧ (∀ j, (j < 0 ∨ Z.of_nat (String.length res) < j)%Z → after !! j = buffer !! j).
Proof.
  intros res after. unfold after, ReadConsole. fold res. simpl.
  rewrite size_t_int by done. rewrite Z.min_l by (unfold res; lia).
  rewrite Nat2Z.id. split; [| split].
  - intros k Hk. rewrite lookup_insert_ne by lia.
    by rewrite (std_copy_lookup_inside res _ 0 buffer k) by lia.
  - apply lookup_insert_eq.
  - intros j Hj. rewrite lookup_insert_ne by lia.
    apply std_copy_lookup_outside. lia.
Qed.

Lemma ReadConsole_short_answer_layout_witness :
  (ReadConsole (λ _ _, "yes") "> " ∅ 8 1).1 !! 0%Z = Some "y"%char
  ∧ (ReadConsole (λ _ _, "yes") "> " ∅ 8 1).1 !! 3%Z = Some newline
  ∧ (ReadConsole (λ _ _, "yes") "> " ∅ 8 1).1 !! 4%Z = None.
Proof.
  assert (Hlen : (0 ≤ 8 < 2 ^ 31)%Z) by lia.
  assert (Hres : (Z.of_nat (String.length "yes") < 8)%Z) by (simpl; lia).
  pose proof (ReadConsole_short_answer_layout (λ _ _, "yes") "> " ∅ 8 1 Hlen Hres)
    as (Hin & Hnl & Hout).
  split; [| split].
  - apply (Hin 0%nat). simpl. lia.
  - exact Hnl.
  - rewrite (Hout 4%Z) by (simpl; lia). reflexivity.
Defined.

(** X2. When the client's answer has at least [length] bytes, [ReadConsole]
    keeps its first [length] bytes at offsets [0 .. length-1] and drops the
    rest: no offset beyond [length] changes. *)
Theorem ReadConsole_long_answer_truncated
    (input : string → bool → string) (prompt : string)
    (buffer : gmap Z ascii) (length hist : Z)
    (Hlen : (0 ≤ length < 2 ^ 31)%Z)
    (Hres : (length ≤ Z.of_nat (String.length (input prompt false)))%Z) :
  let res := input prompt false in
  let after := (ReadConsole input prompt buffer length hist).1 in
  (∀ k, (Z.of_nat k < length)%Z → after !! Z.of_nat k = String.get k res)
  ∧ (∀ j, (j < 0 ∨ length < j)%Z → after !! j = buffer !! j).
Proof.
  intros res after. unfold after, ReadConsole. fold res. simpl.
  rewrite size_t_int by done. rewrite Z.min_r by (unfold res; lia).
  split.
  - intros k Hk. rewrite lookup_insert_ne by lia.
    rewrite (std_copy_lookup_inside res _ 0 buffer k) by (unfold res; lia).
    reflexivity.
  - intros j Hj. rewrite lookup_insert_ne by lia.
    apply std_copy_lookup_outside. lia.
Qed.

Lemma ReadConsole_long_answer_truncated_witness :
  (ReadConsole (λ _ _, "abcdef") "> " ∅ 4 1).1 !! 3%Z = Some "d"%char
  ∧ (ReadConsole (λ _ _, "abcdef") "> " ∅ 4 1).1 !! 5%Z = None.
Proof.
  assert (Hlen : (0 ≤ 4 < 2 ^ 31)%Z) by lia.
  assert (Hres : (4 ≤ Z.of_nat (String.length "abcdef"))%Z) by (simpl; lia).
  pose proof (ReadConsole_long_answer_truncated (λ _ _, "abcdef") "> " ∅ 4 1
                Hlen Hres) as (Hin & Hout).
  split.
  - apply (Hin 3%nat). lia.
  - rewrite (Hout 5%Z) by lia. reflexivity.
Defined.

(** X3. A negative [length] is no bound at all: converted to [std::size_t]
    it exceeds the size of any answer, so the whole answer is copied and the
    line break follows it. *)
Theorem ReadConsole_negative_length_copies_all
    (input : string → bool → string) (prompt : string)
    (buffer : gmap Z ascii) (length hist : Z)
    (Hlen : (- 2 ^ 31 ≤ length < 0)%Z)
    (Hres : (Z.of_nat (String.length (input prompt false)) < 2 ^ 63)%Z) :
  let res := input prompt false in
  let after := (ReadConsole input prompt buffer length hist).1 in
  (∀ k, (k < String.length res)%nat → after !! Z.of_nat k = String.get k res)
  ∧ after !! Z.of_nat (String.length res) = Some newline.
Proof.
  intros res after. unfold after, ReadConsole. fold res. simpl.
  assert (Hsz : (2 ^ 63 ≤ size_t length)%Z).
  { unfold size_t.
    rewrite <- (Z.mod_add length 1 (2 ^ 64)) by lia.
    rewrite Z.mod_small by lia. lia. }
  rewrite Z.min_l by (unfold res; lia). rewrite Nat2Z.id. split.
  - intros k Hk. rewrite lookup_insert_ne by lia.
    by rewrite (std_copy_lookup_inside res _ 0 buffer k) by lia.
  - apply lookup_insert_eq.
Qed.

Lemma ReadConsole_negative_length_copies_all_witness :
  (ReadConsole (λ _ _, "abcd") "> " ∅ (-1) 1).1 !! 3%Z = Some "d"%char
  ∧ (ReadConsole (λ _ _, "abcd") "> " ∅ (-1) 1).1 !! 4%Z = Some newline.
Proof.
  assert (Hlen : (- 2 ^ 31 ≤ -1 < 0)%Z) by lia.
  assert (Hres : (Z.of_nat (String.length "abcd") < 2 ^ 63)%Z) by (simpl; lia).
  pose proof (ReadConsole_negative_length_copies_all (λ _ _, "abcd") "> " ∅ (-1) 1
                Hlen Hres) as (Hin & Hnl).
  split.
  - apply (Hin 3%nat). simpl. lia.
  - exact Hnl.
Defined.

(** ** Console Redirector: sequences of writes *)

Lemma string_app_assoc (a b c : string) : (a +:+ b) +:+ c = a +:+ (b +:+ c).
Proof.
  induction a as [|x a IH]; [done |].
  change (String x ((a +:+ b) +:+ c) = String x (a +:+ (b +:+ c))).
  by f_equal.
Qed.

Lemma string_app_empty_r (a : string) : a +:+ "" = a.
Proof.
  induction a as [|x a IH]; [done |].
  change (String x (a +:+ "") = String x a). by f_equal.
Qed.

(** X4. In publish mode a sequence of console writes becomes one stream
    event per write, in the order of writing, "stderr" for channel 1 and
    "stdout" for any other channel, each carrying the text written; the
    capture buffer and the protection stack are left alone. *)
Theorem publish_mode_keeps_write_order (ws : list console_write) (st : session)
    (Hmode : ptr_R_WriteConsoleEx st = publish_mode) :
  write_console ws st
  = Returned ()
      (mk_session (events st ++ stream_events_of ws) (capture_stream st)
                  (R_PPStack st) publish_mode).
Proof.
  rewrite write_console_spec. f_equal.
  revert st Hmode. induction ws as [|w ws IH]; intros st Hmode.
  - simpl. rewrite app_nil_r. destruct st; simpl in *; by subst.
  - simpl. rewrite IH.
    + unfold console_effect. rewrite Hmode. simpl.
      by rewrite <- (assoc_L (++)).
    + unfold console_effect. by rewrite Hmode.
Qed.

Lemma publish_mode_keeps_write_order_witness :
  write_console
    [mk_console_write "a" 0; mk_console_write "warn" 1; mk_console_write "b" 2]
    session0
  = Returned ()
      (mk_session [stream_event "stdout" "a"; stream_event "stderr" "warn";
                   stream_event "stdout" "b"] "" [] publish_mode).
Proof.
  apply (publish_mode_keeps_write_order
           [mk_console_write "a" 0; mk_console_write "warn" 1;
            mk_console_write "b" 2] session0).
  reflexivity.
Defined.

(** X5. In capture mode a sequence of console writes publishes nothing: the
    texts written on channels other than 1 are appended to the capture
    buffer in the order of writing, those on channel 1 are dropped. *)
Theorem capture_mode_concatenates (ws : list console_write) (st : session)
    (Hmode : ptr_R_WriteConsoleEx st = capture_mode) :
  write_console ws st
  = Returned ()
      (mk_session (events st) (capture_stream st +:+ captured_text ws)
                  (R_PPStack st) capture_mode).
Proof.
  rewrite write_console_spec. f_equal.
  revert st Hmode. induction ws as [|w ws IH]; intros st Hmode.
  - simpl. rewrite string_app_empty_r. destruct st; simpl in *; by subst.
  - assert (Hw : console_effect w st
                 = if decide (cw_otype w = 1%Z) then st else capture (cw_buf w) st)
      by (unfold console_effect; by rewrite Hmode).
    simpl. rewrite Hw.
    destruct (decide (cw_otype w = 1%Z)).
    + by rewrite IH.
    + rewrite IH by done. simpl. by rewrite string_app_assoc.
Qed.

Lemma capture_mode_concatenates_witness :
  write_console
    [mk_console_write "a" 0; mk_console_write "warn" 1; mk_console_write "b" 2]
    capture_session
  = Returned () (mk_session [] "aab" [] capture_mode).
Proof.
  apply (capture_mode_concatenates
           [mk_console_write "a" 0; mk_console_write "warn" 1;
            mk_console_write "b" 2] capture_session).
  reflexivity.
Defined.

(** ** Request Bridge: what the handlers never do *)

Section StreamPreservation.

(** A relation that console output, a change of the capture buffer and a
    change of the protection stack maintain. *)
Variable R : relation session.
Context `{!PreOrder R}.
Hypothesis R_stream : ∀ name text st, R st (emit (stream_event name text) st).
Hypothesis R_capture : ∀ s st, R st (capture s st).
Hypothesis R_stack : ∀ stack st, R st (set_R_PPStack stack st).

Lemma only_stream_console_effects ws st : R st (console_effects ws st).
Proof.
  revert st. induction ws as [|w ws IH]; intros st; simpl; [reflexivity |].
  etrans; [| apply IH]. unfold console_effect.
  destruct (ptr_R_WriteConsoleEx st).
  - apply R_stream.
  - destruct (decide _); [reflexivity | apply R_capture].
Qed.

Lemma only_stream_run_native {A} (c : native_call A) : preserves R (run_native c).
Proof.
  intros st. rewrite run_native_spec.
  destruct (nc_result c); simpl; apply only_stream_console_effects.
Qed.

Lemma only_stream_R_tryCatchError {A} (body handler : A → M A) (bdata hdata : A) :
  (∀ x, preserves R (body x)) → (∀ x, preserves R (handler x)) →
  preserves R (R_tryCatchError body bdata handler hdata).
Proof.
  intros Hbody Hhandler st. unfold R_tryCatchError.
  specialize (Hbody bdata st).
  destruct (body bdata st) as [a st'|[msg|what] st']; simpl in *; try done.
  etrans; [exact Hbody |]. etrans; [apply (R_stack (R_PPStack st)) |].
  apply Hhandler.
Qed.

Ltac only_stream_step :=
  first
    [ apply (preserves_ret R)
    | apply (preserves_R_try R)
    | apply (preserves_cpp_try R)
    | apply (preserves_PROTECT R R_stack)
    | apply (preserves_UNPROTECT R R_stack)
    | apply only_stream_run_native
    | apply (preserves_bind R); [| intros ?]
    | match goal with |- preserves _ (if ?b then _ else _) => destruct b end
    | match goal with |- preserves _ (match ?x with _ => _ end) => destruct x end ].

Lemma only_stream_complete_request_impl invoke_hera_fn code cursor_pos :
  preserves R (complete_request_impl invoke_hera_fn code cursor_pos).
Proof. unfold complete_request_impl. repeat only_stream_step. Qed.

Lemma only_stream_inspect_request_impl invoke_hera_fn json_parse code cursor_pos
    detail_level :
  preserves R (inspect_request_impl invoke_hera_fn json_parse code cursor_pos
                 detail_level).
Proof. unfold inspect_request_impl. repeat only_stream_step. Qed.

Lemma only_stream_configure_impl r_call Rf_eval :
  preserves R (configure_impl r_call Rf_eval).
Proof. unfold configure_impl. repeat only_stream_step. Qed.

Lemma only_stream_is_complete_request_impl R_ParseVector code_ :
  preserves R (is_complete_request_impl R_ParseVector code_).
Proof.
  unfold is_complete_request_impl.
  apply (preserves_bind R); [apply (preserves_PROTECT R R_stack) | intros code].
  apply (preserves_bind R); [| intros ?; repeat only_stream_step].
  apply only_stream_R_tryCatchError; intros x.
  - unfold is_complete_body. repeat only_stream_step.
  - unfold is_complete_handler. repeat only_stream_step.
Qed.

End StreamPreservation.

#[local] Instance same_non_stream_preorder : PreOrder same_non_stream.
Proof.
  split; [intros st; by unfold same_non_stream |].
  intros a b c Hab Hbc. unfold same_non_stream in *. congruence.
Qed.

Lemma same_non_stream_emit name text st :
  same_non_stream st (emit (stream_event name text) st).
Proof.
  unfold same_non_stream, non_stream. simpl.
  rewrite filter_app, filter_cons_False by done. simpl. by rewrite app_nil_r.
Qed.

(** X6. The handlers that answer through their return value publish
    nothing of their own: whatever the companion library, the parser and the
    runtime do, and however the handler ends, the events other than console
    output are after [complete_request_impl], [inspect_request_impl],
    [configure_impl] and [is_complete_request_impl] what they were before. *)
Theorem returning_handlers_publish_only_console_output
    invoke_hera_fn json_parse r_call Rf_eval R_ParseVector
    (code : string) (cursor_pos detail_level : Z) (st : session) :
  non_stream (final (complete_request_impl invoke_hera_fn code cursor_pos st))
  = non_stream st
  ∧ non_stream (final (inspect_request_impl invoke_hera_fn json_parse code
                         cursor_pos detail_level st))
    = non_stream st
  ∧ non_stream (final (configure_impl r_call Rf_eval st)) = non_stream st
  ∧ non_stream (final (is_complete_request_impl R_ParseVector code st))
    = non_stream st.
Proof.
  split; [| split; [| split]].
  - by apply (only_stream_complete_request_impl same_non_stream
                same_non_stream_emit).
  - by apply (only_stream_inspect_request_impl same_non_stream
                same_non_stream_emit).
  - by apply (only_stream_configure_impl same_non_stream same_non_stream_emit).
  - by apply (only_stream_is_complete_request_impl same_non_stream
                (λ _ _, eq_refl)).
Qed.


(** ** Request Bridge: the protection stack on a normal return *)

Lemma bind_Returned_inv {A B} (m : M A) (f : A → M B) st b st2 :
  (m ≫= f) st = Returned b st2 →
  ∃ a st1, m st = Returned a st1 ∧ f a st1 = Returned b st2.
Proof.
  unfold mbind, M_bind. destruct (m st) as [a st1|e st1]; [eauto | done].
Qed.

Lemma PROTECT_Returned x st a st' :
  PROTECT x st = Returned a st' → a = x ∧ R_PPStack st' = x :: R_PPStack st.
Proof. unfold PROTECT. intros H. inversion H; subst. by split. Qed.

Lemma UNPROTECT_Returned n st a st' :
  UNPROTECT n st = Returned a st' → R_PPStack st' = drop n (R_PPStack st).
Proof.
  unfold UNPROTECT. destruct (_ <=? _)%nat; [| done].
  intros H. inversion H; by subst.
Qed.

Lemma run_native_Returned {A} (c : native_call A) st a st' :
  run_native c st = Returned a st' → R_PPStack st' = R_PPStack st.
Proof.
  rewrite run_native_spec. destruct (nc_result c); [| done].
  intros H. inversion H; subst. apply console_effects_R_PPStack.
Qed.

Lemma R_try_Returned {A} (o : option A) st a st' :
  R_try o st = Returned a st' → st' = st.
Proof. destruct o; [| done]. unfold mret, M_ret. intros H. by inversion H. Qed.

Lemma cpp_try_Returned {A} what (o : option A) st a st' :
  cpp_try what o st = Returned a st' → st' = st.
Proof. destruct o; [| done]. unfold mret, M_ret. intros H. by inversion H. Qed.

Lemma mret_Returned {A} (x : A) st a st' :
  (mret x : M A) st = Returned a st' → st' = st.
Proof. unfold mret, M_ret. intros H. by inversion H. Qed.

(** Cut a normal return of a sequence into the normal returns of its steps,
    and read off what each step did to the protection stack. *)
Ltac split_binds H :=
  repeat match type of H with
         | (_ ≫= _) _ = Returned _ _ =>
             let a := fresh "a" in
             let s := fresh "s" in
             let Ha := fresh "Hstep" in
             apply bind_Returned_inv in H as (a & s & Ha & H)
         end.

Ltac stack_facts :=
  repeat match goal with
         | H : PROTECT _ _ = Returned _ _ |- _ => apply PROTECT_Returned in H as [-> H]
         | H : UNPROTECT _ _ = Returned _ _ |- _ => apply UNPROTECT_Returned in H
         | H : run_native _ _ = Returned _ _ |- _ => apply run_native_Returned in H
         | H : R_try _ _ = Returned _ _ |- _ => apply R_try_Returned in H as ->
         | H : cpp_try _ _ _ = Returned _ _ |- _ => apply cpp_try_Returned in H as ->
         | H : @mret M _ _ _ _ = Returned _ _ |- _ => apply mret_Returned in H as ->
         end.

Ltac chase_stack :=
  repeat (simpl;
          match goal with
          | H : R_PPStack ?s = _ |- context [R_PPStack ?s] => rewrite H; clear H
          end);
  reflexivity.

Lemma complete_request_impl_balanced invoke_hera_fn code cursor_pos st r st' :
  complete_request_impl invoke_hera_fn code cursor_pos st = Returned r st' →
  R_PPStack st' = R_PPStack st.
Proof.
  intros H. unfold complete_request_impl in H.
  split_binds H. stack_facts. chase_stack.
Qed.

Lemma inspect_request_impl_balanced invoke_hera_fn json_parse code cursor_pos
    detail_level st r st' :
  inspect_request_impl invoke_hera_fn json_parse code cursor_pos detail_level st
  = Returned r st' →
  R_PPStack st' = R_PPStack st.
Proof.
  intros H. unfold inspect_request_impl in H.
  split_binds H.
  destruct (negb (negb _)); split_binds H; stack_facts; chase_stack.
Qed.

Lemma configure_impl_balanced r_call Rf_eval st r st' :
  configure_impl r_call Rf_eval st = Returned r st' →
  R_PPStack st' = R_PPStack st.
Proof.
  intros H. unfold configure_impl in H.
  split_binds H.
  match goal with
  | Hif : (if decide _ then _ else _) _ = Returned _ _ |- _ =>
      destruct (decide _) in Hif
  end; stack_facts; chase_stack.
Qed.

Lemma execute_request_impl_balanced invoke_hera_fn json_parse n code config st
    result st' :
  nc_result (invoke_hera_fn "execute" (execute_args n code config)) = Some result →
  Rf_inherits result "error_reply" = false →
  execute_request_impl invoke_hera_fn json_parse n code config st = Returned () st' →
  R_PPStack st' = R_PPStack st.
Proof.
  intros Hcall Herr H. unfold execute_request_impl in H.
  split_binds H.
  repeat match goal with
         | Hp : PROTECT _ _ = Returned _ _ |- _ =>
             apply PROTECT_Returned in Hp as [-> Hp]
         end.
  match goal with
  | Hn : run_native _ _ = Returned ?a _ |- _ =>
      assert (a = result) as ->
        by (rewrite run_native_spec in Hn;
            fold (execute_args n code config) in Hn;
            rewrite Hcall in Hn; by inversion Hn);
      apply run_native_Returned in Hn
  end.
  rewrite Herr in *.
  repeat match goal with
         | Hif : (if ?b then _ else _) _ = Returned _ _ |- _ =>
             destruct b; split_binds Hif
         end;
  unfold store_inputs, publish_execution_result, cb, modify in *;
  stack_facts;
  repeat match goal with
         | He : Returned _ (emit _ _) = Returned _ _ |- _ =>
             inversion He; subst; clear He
         end;
  simpl; chase_stack.
Qed.

(** X8. A handler that returns normally leaves the protection stack as it
    found it: this holds for [complete_request_impl], [inspect_request_impl]
    and [configure_impl] whatever the native result, and for
    [execute_request_impl] whenever the native result is not an
    [error_reply]. *)
Theorem normal_return_leaves_stack_as_found
    invoke_hera_fn json_parse r_call Rf_eval
    (n : Z) (code : string) (config : execute_request_config)
    (cursor_pos detail_level : Z) (st : session) :
  (∀ r st',
     complete_request_impl invoke_hera_fn code cursor_pos st = Returned r st' →
     R_PPStack st' = R_PPStack st)
  ∧ (∀ r st',
       inspect_request_impl invoke_hera_fn json_parse code cursor_pos
         detail_level st = Returned r st' →
       R_PPStack st' = R_PPStack st)
  ∧ (∀ r st',
       configure_impl r_call Rf_eval st = Returned r st' →
       R_PPStack st' = R_PPStack st)
  ∧ (∀ result st',
       nc_result (invoke_hera_fn "execute" (execute_args n code config))
       = Some result →
       Rf_inherits result "error_reply" = false →
       execute_request_impl invoke_hera_fn json_parse n code config st
       = Returned () st' →
       R_PPStack st' = R_PPStack st).
Proof.
  split; [| split; [| split]].
  - intros r st'. apply complete_request_impl_balanced.
  - intros r st'. apply inspect_request_impl_balanced.
  - intros r st'. apply configure_impl_balanced.
  - intros result st'. apply execute_request_impl_balanced.
Qed.

Lemma normal_return_leaves_stack_as_found_witness :
  R_PPStack (final (complete_request_impl hera_matches "pri" 3 session_in_frame))
  = R_PPStack session_in_frame
  ∧ R_PPStack (final (execute_request_impl hera_visible parse_as_text 1 "1 + 1"
                        default_config session_in_frame))
    = R_PPStack session_in_frame.
Proof.
  pose proof (normal_return_leaves_stack_as_found hera_matches parse_as_text
                plain_r_call (λ _, mk_native_call [] None) 1 "pri"
                default_config 3 0 session_in_frame) as (Hc & _).
  pose proof (normal_return_leaves_stack_as_found hera_visible parse_as_text
                plain_r_call (λ _, mk_native_call [] None) 1 "1 + 1"
                default_config 3 0 session_in_frame) as (_ & _ & _ & He).
  split.
  - apply (Hc (create_complete_reply
                 (json_array [json_string "print"; json_string "prettyNum"]) 0 3)
              (final (complete_request_impl hera_matches "pri" 3
                        session_in_frame))).
    reflexivity.
  - apply (He (VECSXP ["execution_result"] [STRSXP ["{}"]; STRSXP ["{}"]])
              (final (execute_request_impl hera_visible parse_as_text 1 "1 + 1"
                        default_config session_in_frame)));
      reflexivity.
Defined.

(** ** Request Bridge: errors raised while the runtime works *)

Lemma bind_Raised {A B} (m : M A) (f : A → M B) st e st' :
  m st = Raised e st' → (m ≫= f) st = Raised e st'.
Proof. intros H. unfold mbind, M_bind. by rewrite H. Qed.

Lemma run_native_raises {A} (c : native_call A) ws st :
  c = mk_native_call ws None →
  run_native c st
  = Raised (R_error "error in native evaluation") (console_effects ws st).
Proof. intros ->. by rewrite run_native_spec. Qed.

(** X9. When the companion library's entry point ends in a runtime error,
    the handler ends with that error: the console output written before the
    error has been published (after the history record, for Execute), and
    nothing else is: no reply is sent and no error event is published. *)
Theorem native_error_ends_handler_without_reply
    invoke_hera_fn json_parse (n : Z) (code : string)
    (config : execute_request_config) (cursor_pos detail_level : Z)
    (st : session) (ws : list console_write) :
  (invoke_hera_fn "execute" (execute_args n code config) = mk_native_call ws None →
     ∃ st', execute_request_impl invoke_hera_fn json_parse n code config st
            = Raised (R_error "error in native evaluation") st'
            ∧ events st'
              = events (console_effects ws (history_effect n code config st)))
  ∧ (invoke_hera_fn "complete" (request_args code cursor_pos)
     = mk_native_call ws None →
     ∃ st', complete_request_impl invoke_hera_fn code cursor_pos st
            = Raised (R_error "error in native evaluation") st'
            ∧ events st' = events (console_effects ws st))
  ∧ (invoke_hera_fn "inspect" (request_args code cursor_pos)
     = mk_native_call ws None →
     ∃ st', inspect_request_impl invoke_hera_fn json_parse code cursor_pos
              detail_level st
            = Raised (R_error "error in native evaluation") st'
            ∧ events st' = events (console_effects ws st)).
Proof.
  split; [| split]; intros Hcall.
  - eexists. split.
    + unfold execute_request_impl.
      erewrite (bind_Returned _ _ st () (history_effect n code config st));
        [| unfold history_effect; by destruct (store_history config)].
      do 3 (erewrite bind_Returned; [| reflexivity]).
      fold (execute_args n code config).
      erewrite bind_Raised; [reflexivity |].
      by apply run_native_raises.
    + by rewrite !console_effects_set_R_PPStack.
  - eexists. split.
    + unfold complete_request_impl.
      do 2 (erewrite bind_Returned; [| reflexivity]).
      fold (request_args code cursor_pos).
      erewrite bind_Raised; [reflexivity |].
      by apply run_native_raises.
    + by rewrite !console_effects_set_R_PPStack.
  - eexists. split.
    + unfold inspect_request_impl.
      do 2 (erewrite bind_Returned; [| reflexivity]).
      fold (request_args code cursor_pos).
      erewrite bind_Raised; [reflexivity |].
      by apply run_native_raises.
    + by rewrite !console_effects_set_R_PPStack.
Qed.

Lemma native_error_ends_handler_without_reply_witness :
  ∃ st', execute_request_impl hera_raises parse_as_text 1 "f()" default_config
           session0
         = Raised (R_error "error in native evaluation") st'
         ∧ events st'
           = [store_inputs_event 0 1 "f()"; stream_event "stdout" "working";
              stream_event "stderr" "oops"].
Proof.
  destruct (proj1 (native_error_ends_handler_without_reply hera_raises
                     parse_as_text 1 "f()" default_config 0 0 session0
                     [mk_console_write "working" 0; mk_console_write "oops" 1])
              eq_refl) as (st' & Hrun & Hev).
  exists st'. split; [exact Hrun | exact Hev].
Defined.

(** ** Request Bridge: the replies on the paths that return *)

Lemma replies_emit e st :
  replies (emit e st)
  = (replies st ++ match e with send_reply r => [r] | _ => [] end)%list.
Proof. unfold replies. simpl. rewrite omap_app. by destruct e. Qed.

Lemma replies_console_effects ws st : replies (console_effects ws st) = replies st.
Proof.
  revert st. induction ws as [|w ws IH]; intros st; [done |].
  simpl. rewrite IH. unfold console_effect.
  destruct (ptr_R_WriteConsoleEx st).
  - rewrite replies_emit. by rewrite app_nil_r.
  - by destruct (decide _).
Qed.

Lemma replies_history_effect n code config st :
  replies (history_effect n code config st) = replies st.
Proof.
  unfold history_effect. destruct (store_history config); [| done].
  rewrite replies_emit. by rewrite app_nil_r.
Qed.

(** X10. A completion result made of a character vector of matches (its
    strings free of NUL bytes) and an integer vector starting with the two
    ends of the span: [complete_request_impl] returns the completion reply
    with the same matches in the same order and that span, having published
    only the console output of the call. *)
Theorem complete_reply_carries_matches_and_span
    invoke_hera_fn (code : string) (cursor_pos : Z) (st : session)
    ws klass (x : list string) (a b : Z) span rest
    (Hcall : invoke_hera_fn "complete"
               [Rf_mkString (c_str code); Rf_ScalarInteger cursor_pos]
             = mk_native_call ws
                 (Some (VECSXP klass (STRSXP x :: INTSXP (a :: b :: span) :: rest))))
    (Hx : Forall (λ s, nul_free s = true) x) :
  complete_request_impl invoke_hera_fn code cursor_pos st
  = Returned (create_complete_reply (json_array (json_string <$> x)) a b)
             (console_effects ws st).
Proof.
  erewrite complete_request_impl_spec by exact Hcall.
  by rewrite (c_str_nul_free_list x Hx).
Qed.

Lemma complete_reply_carries_matches_and_span_witness :
  complete_request_impl hera_matches "pri" 3 session0
  = Returned (create_complete_reply
                (json_array [json_string "print"; json_string "prettyNum"]) 0 3)
             session0.
Proof.
  apply (complete_reply_carries_matches_and_span hera_matches "pri" 3 session0
           [] [] ["print"; "prettyNum"] 0 3 [] []).
  - reflexivity.
  - repeat constructor.
Defined.

(** X11. A native result that carries neither the [error_reply] nor the
    [execution_result] tag (an invisible value, say): [execute_request_impl]
    returns having sent exactly one reply, the success reply, as the last
    event, with the protection stack as it found it. *)
Theorem execute_untagged_result_one_success_reply
    invoke_hera_fn json_parse (n : Z) (code : string)
    (config : execute_request_config) (st : session) ws result
    (Hcall : invoke_hera_fn "execute" (execute_args n code config)
             = mk_native_call ws (Some result))
    (Herr : Rf_inherits result "error_reply" = false)
    (Hres : Rf_inherits result "execution_result" = false) :
  ∃ st',
    execute_request_impl invoke_hera_fn json_parse n code config st
    = Returned () st'
    ∧ events st'
      = (events (console_effects ws (history_effect n code config st))
         ++ [send_reply create_successful_reply])%list
    ∧ replies st' = (replies st ++ [create_successful_reply])%list
    ∧ R_PPStack st' = R_PPStack st.
Proof.
  eexists. split; [by eapply execute_untagged_spec |].
  split; [done |]. split.
  - rewrite replies_emit, replies_console_effects. by rewrite replies_history_effect.
  - simpl. by rewrite console_effects_R_PPStack, history_effect_R_PPStack.
Qed.

Lemma execute_untagged_result_one_success_reply_witness :
  ∃ st',
    execute_request_impl hera_invisible parse_as_text 1 "x <- 1" default_config
      session_in_frame
    = Returned () st'
    ∧ replies st' = [create_successful_reply]
    ∧ R_PPStack st' = R_PPStack session_in_frame.
Proof.
  destruct (execute_untagged_result_one_success_reply hera_invisible parse_as_text
              1 "x <- 1" default_config session_in_frame [] R_NilValue
              eq_refl eq_refl eq_refl) as (st' & Hrun & _ & Hrep & Hstack).
  exists st'. split; [exact Hrun | split; [exact Hrep | exact Hstack]].
Defined.

(** X12. A well-formed [execution_result] (not also tagged [error_reply])
    whose two payload strings parse: [execute_request_impl] publishes one
    execution-result event carrying the request's execution count and the
    two parsed documents, then sends the success reply, its only reply, and
    returns with the protection stack as it found it. *)
Theorem execute_result_event_then_success_reply
    invoke_hera_fn json_parse (n : Z) (code : string)
    (config : execute_request_config) (st : session)
    ws klass d ds m ms rest data metadata
    (Hcall : invoke_hera_fn "execute" (execute_args n code config)
             = mk_native_call ws (Some (VECSXP klass
                 (STRSXP (d :: ds) :: STRSXP (m :: ms) :: rest))))
    (Hres : "execution_result" ∈ klass)
    (Herr : "error_reply" ∉ klass)
    (Hd : json_parse (c_str d) = Some data)
    (Hm : json_parse (c_str m) = Some metadata) :
  ∃ st',
    execute_request_impl invoke_hera_fn json_parse n code config st
    = Returned () st'
    ∧ events st'
      = (events (console_effects ws (history_effect n code config st))
         ++ [execution_result_event n data metadata;
             send_reply create_successful_reply])%list
    ∧ replies st' = (replies st ++ [create_successful_reply])%list
    ∧ R_PPStack st' = R_PPStack st.
Proof.
  eexists. split; [by eapply execute_execution_result_spec |].
  split; [| split].
  - simpl. by rewrite <- (assoc_L (++)).
  - rewrite !replies_emit, replies_console_effects, replies_history_effect.
    simpl. by rewrite app_nil_r.
  - simpl. by rewrite console_effects_R_PPStack, history_effect_R_PPStack.
Qed.

Lemma execute_result_event_then_success_reply_witness :
  ∃ st',
    execute_request_impl hera_visible parse_as_text 7 "1 + 1" silent_config
      session0
    = Returned () st'
    ∧ events st'
      = [execution_result_event 7 (json_string "{}") (json_string "{}");
         send_reply create_successful_reply].
Proof.
  destruct (execute_result_event_then_success_reply hera_visible parse_as_text
              7 "1 + 1" silent_config session0 [] ["execution_result"]
              "{}" [] "{}" [] [] (json_string "{}") (json_string "{}") eq_refl)
    as (st' & Hrun & Hev & _).
  - apply list_elem_of_here.
  - by intros ?%list_elem_of_singleton.
  - reflexivity.
  - reflexivity.
  - exists st'. split; [exact Hrun | exact Hev].
Defined.

(** ** Request Bridge: edges of Execute *)

(** One step of a computation that only appends events, native calls and
    pushes included. *)
Ltac extend_step_native :=
  first
    [ apply (only_stream_run_native events_extend
               (λ name text st, events_extend_emit _ st));
        intros ? ?; by unfold events_extend
    | apply (preserves_bind_PROTECT events_extend events_extend_stack)
    | extend_step ].



(** X14. With history storage on, the first thing [execute_request_impl]
    does is to record the full input text at revision 0 under the request's
    execution count: the record follows the events present on entry and
    precedes everything the request publishes, whatever the evaluation does
    afterwards. *)
Theorem execute_stores_history_first
    invoke_hera_fn json_parse (n : Z) (code : string)
    (config : execute_request_config) (st : session)
    (Hhist : store_history config = true) :
  (events st ++ [store_inputs_event 0 n code])%list `prefix_of`
    events (final (execute_request_impl invoke_hera_fn json_parse n code config st)).
Proof.
  unfold execute_request_impl.
  erewrite (bind_Returned _ _ st () (emit (store_inputs_event 0 n code) st));
    [| by rewrite Hhist].
  match goal with
  | |- context [final (?K ?s)] =>
      assert (HK : preserves events_extend K);
        [| exact (HK s)]
  end.
  do 3 apply (preserves_bind_PROTECT events_extend events_extend_stack).
  repeat extend_step_native.
Qed.

Lemma execute_stores_history_first_witness :
  ([] ++ [store_inputs_event 0 1 "f()"])%list `prefix_of`
    events (final (execute_request_impl hera_raises parse_as_text 1 "f()"
                     default_config session0)).
Proof.
  apply (execute_stores_history_first hera_raises parse_as_text 1 "f()"
           default_config session0).
  reflexivity.
Defined.

(** ** Request Bridge: payloads the parser refuses *)

(** X15. When [nl::json::parse] throws on a payload, the exception leaves
    the handler at once: no reply is sent, no execution-result event is
    published, and the three values the handler had protected stay on the
    protection stack. This is so for the data or metadata string of an
    [execution_result] in [execute_request_impl] and for the payload of a
    found inspection in [inspect_request_impl]. *)
Theorem parse_exception_skips_reply_and_unprotect
    invoke_hera_fn json_parse (n : Z) (code : string)
    (config : execute_request_config) (cursor_pos detail_level : Z)
    (st : session) ws klass :
  (∀ d ds m ms rest,
     invoke_hera_fn "execute" (execute_args n code config)
     = mk_native_call ws (Some (VECSXP klass
         (STRSXP (d :: ds) :: STRSXP (m :: ms) :: rest))) →
     "execution_result" ∈ klass →
     "error_reply" ∉ klass →
     json_parse (c_str d) = None ∨ json_parse (c_str m) = None →
     execute_request_impl invoke_hera_fn json_parse n code config st
     = Raised (std_exception "parse_error")
         (set_R_PPStack
            (Rf_ScalarLogical (silent config) :: Rf_ScalarInteger n
             :: Rf_mkString (c_str code) :: R_PPStack st)
            (console_effects ws (history_effect n code config st))))
  ∧ (∀ v vs s ss rest,
       invoke_hera_fn "inspect" (request_args code cursor_pos)
       = mk_native_call ws (Some (VECSXP klass
           (LGLSXP (v :: vs) :: STRSXP (s :: ss) :: rest))) →
       v ≠ 0%Z →
       json_parse (c_str s) = None →
       inspect_request_impl invoke_hera_fn json_parse code cursor_pos
         detail_level st
       = Raised (std_exception "parse_error")
           (set_R_PPStack
              (VECSXP klass (LGLSXP (v :: vs) :: STRSXP (s :: ss) :: rest)
               :: Rf_ScalarInteger cursor_pos :: Rf_mkString (c_str code)
               :: R_PPStack st)
              (console_effects ws st))).
Proof.
  split.
  - intros d ds m ms rest Hcall Hres Herr Hparse.
    execute_prologue Hcall n code config st.
    unfold Rf_inherits.
    rewrite (bool_decide_eq_false_2 _ Herr), (bool_decide_eq_true_2 _ Hres).
    erewrite bind_Returned; [| reflexivity].
    erewrite bind_Raised; [reflexivity |].
    do 3 (erewrite bind_Returned; [| reflexivity]).
    simpl CHAR_STRING_ELT.
    destruct (json_parse (c_str d)) as [data|] eqn:Hd.
    + destruct Hparse as [?|Hm]; [done |].
      erewrite bind_Returned; [| reflexivity].
      erewrite bind_Returned; [| reflexivity].
      erewrite bind_Raised; [reflexivity |].
      simpl. rewrite Hm. simpl. unfold raise. f_equal.
      rewrite !console_effects_set_R_PPStack.
      apply session_eq; simpl; try done.
      by rewrite history_effect_R_PPStack.
    + erewrite bind_Raised; [reflexivity |].
      simpl. unfold raise. f_equal.
      rewrite !console_effects_set_R_PPStack.
      apply session_eq; simpl; try done.
      by rewrite history_effect_R_PPStack.
  - intros v vs s ss rest Hcall Hv Hparse.
    unfold inspect_request_impl.
    do 2 (erewrite bind_Returned; [| reflexivity]).
    fold (request_args code cursor_pos).
    erewrite bind_Returned; [| rewrite run_native_spec, Hcall; reflexivity].
    do 2 (erewrite bind_Returned; [| reflexivity]).
    apply Z.eqb_neq in Hv. rewrite Hv. cbn [negb].
    erewrite bind_Returned; [| reflexivity].
    erewrite bind_Raised; [reflexivity |].
    simpl. rewrite Hparse. simpl. unfold raise. f_equal.
    rewrite !console_effects_set_R_PPStack.
    apply session_eq; simpl; by rewrite ?console_effects_R_PPStack.
Qed.

Lemma parse_exception_skips_reply_and_unprotect_witness :
  execute_request_impl hera_truncated parse_refuses 1 "1 + 1" silent_config
    session0
  = Raised (std_exception "parse_error")
      (mk_session [] ""
         [Rf_ScalarLogical true; Rf_ScalarInteger 1; Rf_mkString "1 + 1"]
         publish_mode)
  ∧ inspect_request_impl hera_found parse_refuses "print" 5 0 session0
    = Raised (std_exception "parse_error")
        (mk_session [] ""
           [VECSXP [] [LGLSXP [1%Z]; STRSXP ["{}"]]; Rf_ScalarInteger 5;
            Rf_mkString "print"]
           publish_mode).
Proof.
  pose proof (parse_exception_skips_reply_and_unprotect hera_truncated
                parse_refuses 1 "1 + 1" silent_config 0 0 session0 []
                ["execution_result"]) as (He & _).
  pose proof (parse_exception_skips_reply_and_unprotect hera_found
                parse_refuses 1 "print" silent_config 5 0 session0 [] [])
    as (_ & Hi).
  split.
  - apply (He "{" [] "{}" [] []).
    + reflexivity.
    + apply list_elem_of_here.
    + by intros ?%list_elem_of_singleton.
    + by left.
  - apply (Hi 1%Z [] "{}" [] []); [reflexivity | lia | reflexivity].
Defined.

(** ** Completeness Classifier: the other parser statuses *)

(** X16. The two parser statuses the switch does not name, PARSE_NULL and
    PARSE_EOF, fall in its default case: the fragment is classified
    "complete", and the session is left as it was. *)
Theorem is_complete_default_case R_ParseVector (code_ : string) (st : session)
    (Hstatus : R_ParseVector (Rf_mkString (c_str code_)) = Some PARSE_NULL
               ∨ R_ParseVector (Rf_mkString (c_str code_)) = Some PARSE_EOF) :
  is_complete_request_impl R_ParseVector code_ st
  = Returned (create_is_complete_reply "complete" "") st.
Proof.
  rewrite is_complete_request_impl_spec.
  by destruct Hstatus as [-> | ->].
Qed.

Lemma is_complete_default_case_witness :
  is_complete_request_impl (λ _, Some PARSE_NULL) "" session0
  = Returned (create_is_complete_reply "complete" "") session0
  ∧ is_complete_request_impl (λ _, Some PARSE_EOF) "" session0
    = Returned (create_is_complete_reply "complete" "") session0.
Proof.
  split.
  - apply (is_complete_default_case (λ _, Some PARSE_NULL) "" session0).
    by left.
  - apply (is_complete_default_case (λ _, Some PARSE_EOF) "" session0).
    by right.
Defined.

(** ** Text handed to the runtime *)

Lemma c_str_idempotent (s : string) : c_str (c_str s) = c_str s.
Proof.
  induction s as [|c r IH]; [done |]. simpl.
  destruct (Ascii.eqb c zero) eqn:Hc; [done |].
  simpl. by rewrite Hc, IH.
Qed.

(** X17. The handlers hand the runtime [code.c_str()]: what follows the
    first NUL byte of the request's text never reaches the companion library
    or the parser. Each handler behaves on a text as on its part before the
    first NUL byte (for Execute, when history storage is off; the history
    record, when on, holds the whole text). *)
Theorem text_after_nul_is_ignored
    invoke_hera_fn json_parse R_ParseVector
    (n : Z) (code : string) (silent_flag allow_stdin_flag : bool)
    (cursor_pos detail_level : Z) (st : session) :
  is_complete_request_impl R_ParseVector code st
  = is_complete_request_impl R_ParseVector (c_str code) st
  ∧ complete_request_impl invoke_hera_fn code cursor_pos st
    = complete_request_impl invoke_hera_fn (c_str code) cursor_pos st
  ∧ inspect_request_impl invoke_hera_fn json_parse code cursor_pos detail_level st
    = inspect_request_impl invoke_hera_fn json_parse (c_str code) cursor_pos
        detail_level st
  ∧ execute_request_impl invoke_hera_fn json_parse n code
      (mk_execute_request_config silent_flag false allow_stdin_flag) st
    = execute_request_impl invoke_hera_fn json_parse n (c_str code)
        (mk_execute_request_config silent_flag false allow_stdin_flag) st.
Proof.
  unfold is_complete_request_impl, complete_request_impl, inspect_request_impl,
    execute_request_impl.
  simpl store_history. cbv iota.
  by rewrite !c_str_idempotent.
Qed.
